(** * ATGMLogger / SerialLogger: dispatch and supervision engine

    A shallow embedding of
      - [atgmlogger/plugins/__init__.py]  (PluginInterface: put, exit,
                                           configure; load_plugin),
      - [atgmlogger/dispatcher.py]        (Dispatcher: register, put, signal,
                                           run, exit),
      - [SerialLogger.py]                 (SerialLogger: run, clean_exit,
                                           decode, device_listener,
                                           led_signaler, usb_utility),
    with the properties of the design document stated over it.

    Python objects with identity (threads, plugin instances, classes) are
    numbered; a thread's liveness is a flag that only the thread itself can
    clear. Blocking calls are steps that are enabled only when their wait
    condition holds. *)

From stdpp Require Import base gmap sets list strings.
From Stdlib Require Import ZArith Lia.

(** ** Messages and their classes ([atgmlogger/types.py] is imported by the
    dispatcher; only the class of an item matters for routing). *)

Module Types.

Inductive CommandSignals := SIGHUP | SignalOther (code : nat).

Inductive Payload :=
| Signal (sig : CommandSignals)
| BlinkRequest (led : string) (continuous : bool).

(** Classes of queue items. [KObject] is Python's root class: every item is
    an instance of it, none has it as its exact type. [KOther n] are the
    other classes that derive from [object] directly, [KDerived n base] the
    classes that somebody derives from [base]: which subclasses of
    [DataLine] and [Command] exist is not fixed by these sources. *)
Inductive Kind :=
| KDataLine
| KCommand
| KNoneType
| KObject
| KOther (n : nat)
| KDerived (n : nat) (base : Kind).

(** What can sit on a queue: any Python object, [None] included.
    [Derived n base] is an instance of the [n]-th class derived from the
    class of [base], with the content of [base]. *)
Inductive Item :=
| DataLine (line : string)
| Command (payload : Payload)
| PyNone
| Other (n : nat) (repr : string)
| Derived (n : nat) (base : Item).

(** [type(item)] *)
Fixpoint type_of (item : Item) : Kind :=
  match item with
  | DataLine _ => KDataLine
  | Command _ => KCommand
  | PyNone => KNoneType
  | Other n _ => KOther n
  | Derived n base => KDerived n (type_of base)
  end.

#[global] Instance Kind_eq_dec : EqDecision Kind.
Proof. solve_decision. Defined.

Fixpoint Kind_to_list (k : Kind) : list nat :=
  match k with
  | KDataLine => [0]
  | KCommand => [1]
  | KNoneType => [2]
  | KObject => [3]
  | KOther n => [4; n]
  | KDerived n base => 5 :: n :: Kind_to_list base
  end.

Fixpoint Kind_of_list (l : list nat) : Kind :=
  match l with
  | 0 :: _ => KDataLine
  | 1 :: _ => KCommand
  | 2 :: _ => KNoneType
  | 4 :: n :: _ => KOther n
  | 5 :: n :: rest => KDerived n (Kind_of_list rest)
  | _ => KObject
  end.

#[global] Instance Kind_countable : Countable Kind.
Proof.
  apply (inj_countable' Kind_to_list Kind_of_list).
  intros k. induction k as [| | | | n | n base IH]; simpl; congruence.
Defined.

#[global] Instance CommandSignals_eq_dec : EqDecision CommandSignals.
Proof. solve_decision. Defined.
#[global] Instance Payload_eq_dec : EqDecision Payload.
Proof. solve_decision. Defined.
#[global] Instance Item_eq_dec : EqDecision Item.
Proof. solve_decision. Defined.

(** [issubclass(k, c)]: every class is a subclass of itself, of [object],
    and of whatever its base is a subclass of. *)
Fixpoint issubclass (k c : Kind) : bool :=
  bool_decide (k = c) || bool_decide (c = KObject) ||
  match k with
  | KDerived _ base => issubclass base c
  | _ => false
  end.

(** Exceptions that the modelled code raises or lets through. *)
Inductive Exn :=
| TypeError | AttributeError | AssertionError | RuntimeError
| OSError | SinkError.

End Types.
Export Types.

(** ** [PluginInterface] (plugins/__init__.py) *)

Module Plugin.

(** The part of a plugin instance that the dispatcher touches.
    [consumerType] is the class attribute used by [put]: Python [None] when a
    subclass left it unset, otherwise a class or a tuple of classes.
    [consumer_type] is the result of the [consumer_type()] call made by
    [Dispatcher.run]; the method is supplied by the concrete plugin.
    [queue] is the history of everything enqueued into [self._queue];
    [unfinished_tasks] is the counter that [Queue.join] waits on. *)
Record Worker := mkWorker {
  consumerType : option (list Kind);
  consumer_type : list Kind;
  queue : list Item;
  unfinished_tasks : nat;
  exitSig : bool;
  alive : bool
}.

(** [isinstance(item, classes)] for a class or tuple of classes. *)
Definition isinstance (item : Item) (classes : list Kind) : bool :=
  existsb (issubclass (type_of item)) classes.

(** [self._queue.put_nowait(item)] on the unbounded private queue. *)
Definition put_nowait (item : Item) (w : Worker) : Worker :=
  {| consumerType := consumerType w;
     consumer_type := consumer_type w;
     queue := queue w ++ [item];
     unfinished_tasks := S (unfinished_tasks w);
     exitSig := exitSig w;
     alive := alive w |}.

(** [PluginInterface.put] (lines 44-46). The result is the worker after the
    call and the exception the call raised, if any: [isinstance] with
    [None] as its second argument is a [TypeError]. *)
Definition put (item : Item) (w : Worker) : Worker * option Exn :=
  match consumerType w with
  | None => (w, Some TypeError)
  | Some classes =>
      if isinstance item classes then (put_nowait item w, None)
      else (w, None)
  end.

(** The kinds that [put] lets through: [isinstance] against the class
    attribute [consumerType], none when the attribute was left unset. The
    set that [Dispatcher.run] routes by is another one, the result of
    [consumer_type()]. *)
Definition accepts (w : Worker) (k : Kind) : bool :=
  match consumerType w with
  | None => false
  | Some classes => existsb (issubclass k) classes
  end.

Definition set_exitSig (w : Worker) : Worker :=
  {| consumerType := consumerType w;
     consumer_type := consumer_type w;
     queue := queue w;
     unfinished_tasks := unfinished_tasks w;
     exitSig := true;
     alive := alive w |}.

(** [PluginInterface.exit] (lines 39-42). [None]: the call is still blocked
    in [self._queue.join()], which returns once every enqueued item has been
    marked done. The thread itself is not joined. *)
Definition exit (join : bool) (w : Worker) : option Worker :=
  if join && negb (Nat.eqb (unfinished_tasks w) 0) then None
  else Some (set_exitSig w).

(** The worker thread marks one fetched item as done ([task_done]). *)
Definition task_done (w : Worker) : Worker :=
  {| consumerType := consumerType w;
     consumer_type := consumer_type w;
     queue := queue w;
     unfinished_tasks := pred (unfinished_tasks w);
     exitSig := exitSig w;
     alive := alive w |}.

(** The worker thread's [run] returns. *)
Definition finish (w : Worker) : Worker :=
  {| consumerType := consumerType w;
     consumer_type := consumer_type w;
     queue := queue w;
     unfinished_tasks := unfinished_tasks w;
     exitSig := exitSig w;
     alive := false |}.

Lemma put_queue_cases item w :
  queue (put item w).1 = queue w ∨
  (accepts w (type_of item) = true ∧ queue (put item w).1 = queue w ++ [item]).
Proof.
  unfold put, accepts, isinstance.
  destruct (consumerType w) as [classes|]; simpl; [|by left].
  destruct (existsb _ classes) eqn:E; simpl; [right|left]; done.
Qed.

Lemma put_accepted item w :
  accepts w (type_of item) = true →
  put item w = (put_nowait item w, None).
Proof.
  unfold put, accepts, isinstance.
  destruct (consumerType w); [|done]. by intros ->.
Qed.

Lemma put_keeps_class item w :
  consumerType (put item w).1 = consumerType w ∧
  consumer_type (put item w).1 = consumer_type w ∧
  exitSig (put item w).1 = exitSig w ∧
  alive (put item w).1 = alive w.
Proof.
  unfold put. destruct (consumerType w) eqn:E; simpl; [|done].
  destruct (isinstance _ _); simpl; done.
Qed.

(** C4. [put] tests a message against the class attribute [consumerType].
    A message that is an instance of none of its classes is not enqueued:
    the worker is left exactly as it was, and [put] returns without raising
    whenever [consumerType] is set. With [consumerType] left at [None]
    nothing is enqueued either, but [put] raises [TypeError]. *)
Theorem put_drops_unaccepted (w : Worker) (m : Item) :
  accepts w (type_of m) = false →
  put m w = (w, match consumerType w with
                | Some _ => None
                | None => Some TypeError
                end).
Proof.
  unfold put, accepts, isinstance.
  destruct (consumerType w) as [classes|]; simpl; [|done].
  by intros ->.
Qed.

Definition data_worker : Worker :=
  mkWorker (Some [KDataLine]) [KDataLine] [] 0 false true.

(** A worker that subscribes to data lines and leaves [consumerType] at the
    [None] of the base class, and one that subscribes to data lines while
    its [consumerType] is [(DataLine, Command)]. *)
Definition unset_worker : Worker :=
  mkWorker None [KDataLine] [] 0 false true.

Definition wide_worker : Worker :=
  mkWorker (Some [KDataLine; KCommand]) [KDataLine] [] 0 false true.

Lemma put_drops_unaccepted_witness :
  accepts data_worker (type_of (Command (Signal SIGHUP))) = false ∧
  put (Command (Signal SIGHUP)) data_worker = (data_worker, None).
Proof.
  split; [reflexivity|].
  apply (put_drops_unaccepted data_worker (Command (Signal SIGHUP))).
  reflexivity.
Defined.

(** C4 as stated does not hold. A command is not among the kinds either
    worker declares with [consumer_type()]; handed one, the first worker's
    [put] raises [TypeError] instead of dropping it silently, and the
    second worker's [put] enqueues it. *)
Lemma put_raises_or_enqueues_undeclared :
  put (Command (Signal SIGHUP)) unset_worker = (unset_worker, Some TypeError) ∧
  queue (put (Command (Signal SIGHUP)) wide_worker).1
    = [Command (Signal SIGHUP)] ∧
  (type_of (Command (Signal SIGHUP)) ∉ consumer_type unset_worker) ∧
  (type_of (Command (Signal SIGHUP)) ∉ consumer_type wide_worker).
Proof.
  split_and!; [reflexivity|reflexivity| |];
    intros [=]%list_elem_of_singleton.
Qed.

End Plugin.

(** ** The plugin registry: [Dispatcher.register] (dispatcher.py, 30-73) *)

Module Registry.

(** Keyword arguments handed to a plugin: a dictionary from option names to
    Python values. *)
Inductive PyValue := VInt (z : Z) | VStr (s : string) | VBool (b : bool) | VNone.

Abbreviation Params := (gmap string PyValue).

Inductive ConfigureOutcome := Configured | ConfigureRaises (e : Exn).

(** A class object as [register] sees it: its identity, the two [issubclass]
    tests, and what its [configure] classmethod does with given parameters.
    Python allows a class to derive from both plugin bases;
    [load_plugin] builds such classes itself (plugins/__init__.py, 120-121). *)
Record Klass := mkKlass {
  class_id : nat;
  is_PluginInterface : bool;
  is_PluginDaemon : bool;
  configure : Params → ConfigureOutcome
}.

(** The class attributes [_plugins], [_daemons], [_params], [_runlock]
    ([true]: the lock is held). *)
Record Registry := mkRegistry {
  _plugins : gset nat;
  _daemons : gset nat;
  _params : gmap nat Params;
  _runlock : bool
}.

Definition empty_registry : Registry := mkRegistry ∅ ∅ ∅ false.

Inductive LogRecord :=
| LogDebug (what : string) (klass : nat)
| LogInfo (what : string) (klass : nat)
| LogWarning (what : string) (klass : nat).

(** How a call ends: it is still waiting for the lock, it raised, or it
    returned. *)
Inductive Outcome := Blocked | Raised (e : Exn) | Returned.

(** [Dispatcher.register(klass, **params)]. [klass = None] is Python's
    [None]. An exception leaves the method between [acquire_lock] and
    [release_lock], so the lock stays held. *)
Definition register (klass : option Klass) (params : Params) (r : Registry)
  : Registry * Outcome * list LogRecord :=
  if _runlock r then (r, Blocked, [])
  else
    match klass with
    | None => (mkRegistry (_plugins r) (_daemons r) (_params r) true,
               Raised AssertionError, [])
    | Some k =>
        let id := class_id k in
        if is_PluginInterface k && bool_decide (id ∉ _plugins r) then
          (mkRegistry ({[id]} ∪ _plugins r) (_daemons r)
                      (<[id := params]> (_params r)) false,
           Returned, [LogDebug "regular plugin" id])
        else if is_PluginDaemon k && bool_decide (id ∉ _daemons r) then
          match configure k params with
          | Configured =>
              (mkRegistry (_plugins r) ({[id]} ∪ _daemons r)
                          (<[id := params]> (_params r)) false,
               Returned, [LogDebug "daemon" id])
          | ConfigureRaises AttributeError | ConfigureRaises TypeError =>
              (mkRegistry (_plugins r) ({[id]} ∪ _daemons r)
                          (<[id := params]> (_params r)) false,
               Returned,
               [LogDebug "daemon" id; LogWarning "unable to configure" id])
          | ConfigureRaises e =>
              (mkRegistry (_plugins r) ({[id]} ∪ _daemons r) (_params r) true,
               Raised e, [LogDebug "daemon" id])
          end
        else (r, Returned, [LogInfo "already registered" id])
    end.

Definition registry_of (x : Registry * Outcome * list LogRecord) : Registry := x.1.1.
Definition outcome_of (x : Registry * Outcome * list LogRecord) : Outcome := x.1.2.
Definition logs_of (x : Registry * Outcome * list LogRecord) : list LogRecord := x.2.

(** A class is present in the registry. *)
Definition registered (k : Klass) (r : Registry) : Prop :=
  class_id k ∈ _plugins r ∨ class_id k ∈ _daemons r.

(** A class is registered under every kind it belongs to. *)
Definition fully_registered (k : Klass) (r : Registry) : Prop :=
  (is_PluginInterface k = true → class_id k ∈ _plugins r) ∧
  (is_PluginDaemon k = true → class_id k ∈ _daemons r).

Definition exactly_one_kind (k : Klass) : Prop :=
  is_PluginInterface k ≠ is_PluginDaemon k.

(** A class deriving from both bases, as [load_plugin] produces for a
    daemon module. *)
Definition dual : Klass := mkKlass 7 true true (λ _, Configured).

Definition first_params : Params := {[ "pin" := VInt 16 ]}.
Definition second_params : Params := {[ "pin" := VInt 18 ]}.

Definition once : Registry :=
  registry_of (register (Some dual) first_params empty_registry).
Definition twice : Registry :=
  registry_of (register (Some dual) second_params once).

Definition gpio_like : Klass := mkKlass 3 true false (λ _, Configured).

Lemma single_kind_fully_registered k r :
  exactly_one_kind k →
  (is_PluginInterface k = true → class_id k ∈ _plugins r) →
  (is_PluginInterface k = false → class_id k ∈ _daemons r) →
  fully_registered k r.
Proof.
  unfold exactly_one_kind, fully_registered.
  destruct (is_PluginInterface k), (is_PluginDaemon k); naive_solver.
Qed.



Definition gpio_registered : Registry :=
  registry_of (register (Some gpio_like) first_params empty_registry).


(** *** Sequences of registrations *)

(** One call [Dispatcher.register(klass, **params)]. *)
Record Call := mkCall {
  call_klass : option Klass;
  call_params : Params
}.

(** The calls are made one after the other, each on the registry the
    previous one left. *)
Definition register_all (calls : list Call) (r : Registry) : Registry :=
  foldl (λ r c, registry_of (register (call_klass c) (call_params c) r)) r calls.

(** Every regular plugin has stored parameters, and parameters are stored
    for registered classes only. *)
Definition params_cover (r : Registry) : Prop :=
  (∀ id, id ∈ _plugins r → is_Some (_params r !! id)) ∧
  (∀ id, is_Some (_params r !! id) → id ∈ _plugins r ∨ id ∈ _daemons r).

Lemma register_cases klass params r :
  registry_of (register klass params r) = r ∨
  (∃ k, klass = Some k ∧ class_id k ∉ _plugins r ∧
     registry_of (register klass params r) =
       mkRegistry ({[class_id k]} ∪ _plugins r) (_daemons r)
                  (<[class_id k := params]> (_params r)) false) ∨
  (∃ k, klass = Some k ∧ class_id k ∉ _daemons r ∧
     registry_of (register klass params r) =
       mkRegistry (_plugins r) ({[class_id k]} ∪ _daemons r)
                  (<[class_id k := params]> (_params r)) false) ∨
  (∃ k, klass = Some k ∧ class_id k ∉ _daemons r ∧
     registry_of (register klass params r) =
       mkRegistry (_plugins r) ({[class_id k]} ∪ _daemons r) (_params r) true) ∨
  (klass = None ∧ _runlock r = false ∧
     registry_of (register klass params r) =
       mkRegistry (_plugins r) (_daemons r) (_params r) true).
Proof.
  unfold register. destruct (_runlock r) eqn:Hl; [by left|].
  destruct klass as [k|]; [|by do 4 right].
  destruct (is_PluginInterface k); simpl.
  - case_bool_decide as Hp; simpl; [right; left; by eauto|].
    destruct (is_PluginDaemon k); simpl; [|by left].
    case_bool_decide as Hd; simpl; [|by left].
    destruct (configure k params) as [|[]]; simpl; eauto 10.
  - destruct (is_PluginDaemon k); simpl; [|by left].
    case_bool_decide as Hd; simpl; [|by left].
    destruct (configure k params) as [|[]]; simpl; eauto 10.
Qed.

Lemma params_cover_register klass params r :
  params_cover r → params_cover (registry_of (register klass params r)).
Proof.
  intros [Hp Hd].
  destruct (register_cases klass params r)
    as [->|[(k & _ & _ & ->)|[(k & _ & _ & ->)|[(k & _ & _ & ->)|(_ & _ & ->)]]]];
    try done; split; simpl; intros id.
  - intros [->%elem_of_singleton|Hin]%elem_of_union.
    + rewrite lookup_insert_eq. by eexists.
    + destruct (decide (class_id k = id)) as [->|Hne].
      * rewrite lookup_insert_eq. by eexists.
      * rewrite lookup_insert_ne by done. by apply Hp.
  - destruct (decide (class_id k = id)) as [->|Hne]; [set_solver|].
    rewrite lookup_insert_ne by done. intros H. destruct (Hd id H); set_solver.
  - intros Hin. destruct (decide (class_id k = id)) as [->|Hne].
    + rewrite lookup_insert_eq. by eexists.
    + rewrite lookup_insert_ne by done. by apply Hp.
  - destruct (decide (class_id k = id)) as [->|Hne]; [set_solver|].
    rewrite lookup_insert_ne by done. intros H. destruct (Hd id H); set_solver.
  - by apply Hp.
  - intros H. destruct (Hd id H); set_solver.
Qed.

(** X1. Whatever calls of [register] were made since the registry was
    empty, and however they ended, parameters are stored for every class in
    the regular plugin set (the lookup [self._params[plugin]] of [run]
    cannot miss), and only registered classes have stored parameters. *)
Theorem stored_params_cover_plugins (calls : list Call) :
  params_cover (register_all calls empty_registry).
Proof.
  assert (∀ r, params_cover r → params_cover (register_all calls r)) as H.
  { induction calls as [|c rest IH]; intros r Hr; simpl; [done|].
    apply IH. by apply params_cover_register. }
  apply H. split; simpl; intros id.
  - set_solver.
  - rewrite lookup_empty. by intros [? ?].
Qed.

Lemma register_grows klass params r :
  _plugins r ⊆ _plugins (registry_of (register klass params r)) ∧
  _daemons r ⊆ _daemons (registry_of (register klass params r)).
Proof.
  destruct (register_cases klass params r)
    as [->|[(k & _ & _ & ->)|[(k & _ & _ & ->)|[(k & _ & _ & ->)|(_ & _ & ->)]]]];
    simpl; set_solver.
Qed.

Lemma register_other klass params r id :
  (∀ k, klass = Some k → class_id k ≠ id) →
  (id ∈ _plugins (registry_of (register klass params r)) ↔ id ∈ _plugins r) ∧
  (id ∈ _daemons (registry_of (register klass params r)) ↔ id ∈ _daemons r) ∧
  _params (registry_of (register klass params r)) !! id = _params r !! id.
Proof.
  intros Hid.
  destruct (register_cases klass params r)
    as [->|[(k & Hk & _ & ->)|[(k & Hk & _ & ->)|[(k & Hk & _ & ->)|(_ & _ & ->)]]]];
    try done; simpl; pose proof (Hid k Hk) as Hne;
    rewrite ?lookup_insert_ne by done; set_solver.
Qed.

(** X2. Registration never removes a class from either set; and calls
    that concern other classes change neither a class's membership nor its
    stored parameters. *)
Theorem registration_grows_and_frames (calls : list Call) (r : Registry) :
  _plugins r ⊆ _plugins (register_all calls r) ∧
  _daemons r ⊆ _daemons (register_all calls r) ∧
  ∀ id,
    (∀ c k, c ∈ calls → call_klass c = Some k → class_id k ≠ id) →
    (id ∈ _plugins (register_all calls r) ↔ id ∈ _plugins r) ∧
    (id ∈ _daemons (register_all calls r) ↔ id ∈ _daemons r) ∧
    _params (register_all calls r) !! id = _params r !! id.
Proof.
  revert r. induction calls as [|c rest IH]; intros r; simpl.
  { split_and!; try done. }
  destruct (IH (registry_of (register (call_klass c) (call_params c) r)))
    as (Hp & Hd & Hf).
  destruct (register_grows (call_klass c) (call_params c) r) as [Hp1 Hd1].
  split_and!; [set_solver|set_solver|].
  intros id Hid.
  destruct (Hf id) as (H1 & H2 & H3).
  { intros c' k Hc'. apply Hid. set_solver. }
  destruct (register_other (call_klass c) (call_params c) r id)
    as (H4 & H5 & H6).
  { intros k Hk. apply (Hid c k); [set_solver|done]. }
  rewrite H1, H2, H3, H4, H5, H6. done.
Qed.

Lemma register_blocked klass params r :
  _runlock r = true →
  register klass params r = (r, Blocked, []).
Proof. unfold register. by intros ->. Qed.

Lemma register_all_blocked calls r :
  _runlock r = true → register_all calls r = r.
Proof.
  intros Hl. induction calls as [|c rest IH]; simpl; [done|].
  by rewrite register_blocked.
Qed.


Definition picky : Klass :=
  mkKlass 9 false true (λ _, ConfigureRaises RuntimeError).


End Registry.

(** ** [load_plugin] (plugins/__init__.py, 78-126) *)

Module Loader.

Import Registry.

(** What a module attribute can hold: a class, a string, [None], or
    something else that is not a class. *)
Inductive PyObj :=
| ObjClass (k : Klass)
| ObjStr (s : string)
| ObjNone
| ObjOther.

(** An imported module, as [getattr(plugin, name)] sees it ([None]: the
    attribute is missing and [getattr] raises [AttributeError]). *)
Definition PyModule := string → option PyObj.

Inductive Error := ImportError | Python (e : Exn).

(** How a call of [load_plugin] ends: waiting for the run lock inside
    [register], with an exception, or with the class it returns. *)
Inductive Loaded :=
| LoadBlocked
| LoadRaised (e : Error)
| LoadReturned (k : Klass).

(** The dispatcher's class attributes, the number of class objects created
    so far (the identity of the next one), and the log. *)
Record World := mkWorld {
  registry : Registry;
  next_class : nat;
  log : list LogRecord
}.

(** Every class the registry knows was created before the next one. *)
Definition fresh (w : World) : Prop :=
  ∀ id, id ∈ _plugins (registry w) ∪ _daemons (registry w) →
        id < next_class w.

Section Load.

(** [import_module(name, package=pkg)]; [None]: [ImportError]. Python
    caches a module once imported, so that a module's classes are the same
    objects at every import. *)
Context (import_module : string → string → option PyModule).

(** [type(name, (klass, PluginInterface), {})]: [None] when Python refuses
    to build the class ([TypeError]), otherwise what the [configure] found
    on the new class does. *)
Context (adapt : Klass → option (Params → ConfigureOutcome)).

(** [path or "%s.plugins" % __package__.split('.')[0]]: an empty [path]
    counts as none. *)
Definition pkg_name (path : option string) : string :=
  match path with
  | None | Some EmptyString => "atgmlogger.plugins"
  | Some p => p
  end.

(** Lines 109-117: the module is imported and its [__plugin__] attribute
    read; a string there names the attribute that holds the class. *)
Definition find_class (name : string) (path : option string)
  : Error + PyObj :=
  match import_module ("." +:+ name) (pkg_name path) with
  | None => inl ImportError
  | Some plugin =>
      match plugin "__plugin__" with
      | None => inl (Python AttributeError)
      | Some (ObjStr attr) =>
          match plugin attr with
          | None => inl (Python AttributeError)
          | Some obj => inr obj
          end
      | Some obj => inr obj
      end
  end.

(** Lines 118-121: [None] is refused with [ImportError]; [issubclass]
    raises [TypeError] for anything else that is not a class;
    a class that is not a regular plugin is wrapped in a class of its own,
    created by this call. *)
Definition as_plugin (obj : PyObj) (w : World) : Error + Klass * World :=
  match obj with
  | ObjNone => inl ImportError
  | ObjStr _ | ObjOther => inl (Python TypeError)
  | ObjClass k =>
      if is_PluginInterface k then inr (k, w)
      else
        match adapt k with
        | None => inl (Python TypeError)
        | Some conf =>
            inr (mkKlass (next_class w) true (is_PluginDaemon k) conf,
                 mkWorld (registry w) (S (next_class w)) (log w))
        end
  end.

(** [load_plugin(name, path, register, **plugin_params)] *)
Definition load_plugin (name : string) (path : option string)
    (register : bool) (plugin_params : Params) (w : World)
  : World * Loaded :=
  match find_class name path with
  | inl e => (w, LoadRaised e)
  | inr obj =>
      match as_plugin obj w with
      | inl e => (w, LoadRaised e)
      | inr (klass, w1) =>
          if register then
            let '(r, outcome, lines) :=
              Registry.register (Some klass) plugin_params (registry w1) in
            let w2 := mkWorld r (next_class w1) (log w1 ++ lines) in
            match outcome with
            | Blocked => (w2, LoadBlocked)
            | Raised e => (w2, LoadRaised (Python e))
            | Returned => (w2, LoadReturned klass)
            end
          else (w1, LoadReturned klass)
      end
  end.

Lemma as_plugin_regular obj w klass w1 :
  as_plugin obj w = inr (klass, w1) →
  is_PluginInterface klass = true ∧ registry w1 = registry w ∧
  next_class w ≤ next_class w1.
Proof.
  unfold as_plugin. destruct obj as [k| | |]; try done.
  destruct (is_PluginInterface k) eqn:E; [by intros [= <- <-]|].
  destruct (adapt k); [|done]. intros [= <- <-]. simpl. split_and!; auto.
Qed.

Lemma register_regular k params r :
  is_PluginInterface k = true →
  outcome_of (register (Some k) params r) = Returned →
  class_id k ∈ _plugins (registry_of (register (Some k) params r)) ∧
  _runlock (registry_of (register (Some k) params r)) = false.
Proof.
  intros Hk. unfold register, outcome_of, registry_of.
  destruct (_runlock r) eqn:Hl; [done|]. rewrite Hk. simpl.
  case_bool_decide as Hp; simpl; [intros _; split; [set_solver|done]|].
  destruct (is_PluginDaemon k); simpl; [|by intros _].
  case_bool_decide; simpl; [|by intros _].
  destruct (configure k params) as [|[]]; simpl; try done; by intros _.
Qed.

(** X23. Whatever the module holds, a class that [load_plugin] returns
    is a regular plugin class; and when registration was asked for, the
    class is among the registered regular plugins and the run lock is free
    when [load_plugin] returns. *)
Theorem load_plugin_returns_registered (name : string) (path : option string)
    (register : bool) (plugin_params : Params) (w w' : World) (k : Klass) :
  load_plugin name path register plugin_params w = (w', LoadReturned k) →
  is_PluginInterface k = true ∧
  (register = true →
   class_id k ∈ _plugins (registry w') ∧ _runlock (registry w') = false).
Proof.
  unfold load_plugin. destruct (find_class name path) as [e|obj]; [done|].
  destruct (as_plugin obj w) as [e|[klass w1]] eqn:Ha; [done|].
  apply as_plugin_regular in Ha as (Hk & _ & _).
  destruct register.
  - pose proof (register_regular klass plugin_params (registry w1) Hk) as Hr.
    unfold outcome_of, registry_of in Hr.
    destruct (Registry.register (Some klass) plugin_params (registry w1))
      as [[r outcome] lines]. simpl in Hr.
    destruct outcome; try done. intros [= <- <-]. auto.
  - intros [= <- <-]. by split.
Qed.

(** X24. [load_plugin] touches the registry only through [register]:
    without registration, or when it ends with an [ImportError] (the module
    is missing, or names no class), the registry is as it was. *)
Theorem load_plugin_keeps_registry (name : string) (path : option string)
    (register : bool) (plugin_params : Params) (w : World) :
  register = false ∨
  (load_plugin name path register plugin_params w).2 = LoadRaised ImportError →
  registry (load_plugin name path register plugin_params w).1 = registry w.
Proof.
  unfold load_plugin. destruct (find_class name path) as [e|obj]; [done|].
  destruct (as_plugin obj w) as [e|[klass w1]] eqn:Ha; [done|].
  apply as_plugin_regular in Ha as (_ & Hr & _).
  destruct register.
  - destruct (Registry.register (Some klass) plugin_params (registry w1))
      as [[r outcome] lines]. destruct outcome; simpl; by intros [|].
  - by intros _.
Qed.


End Load.

(** A daemon module in the default package, and nothing else. *)
Definition blinker : Klass := mkKlass 0 false true (λ _, Configured).

Definition one_module (name pkg : string) : option PyModule :=
  if bool_decide (name = ".blink" ∧ pkg = "atgmlogger.plugins")
  then Some (λ attr,
         if bool_decide (attr = "__plugin__") then Some (ObjStr "Blinker")
         else if bool_decide (attr = "Blinker") then Some (ObjClass blinker)
         else None)
  else None.

Definition one_direct (name pkg : string) : option PyModule :=
  if bool_decide (name = ".blink" ∧ pkg = "atgmlogger.plugins")
  then Some (λ attr,
         if bool_decide (attr = "__plugin__") then Some (ObjClass blinker)
         else None)
  else None.

Definition inherit (k : Klass) : option (Params → ConfigureOutcome) :=
  Some (configure k).

Definition clean : World := mkWorld empty_registry 1 [].

Lemma load_plugin_returns_registered_witness :
  ∃ w' k,
    load_plugin one_module inherit "blink" None true ∅ clean
      = (w', LoadReturned k) ∧
    is_PluginInterface k = true ∧
    class_id k ∈ _plugins (registry w').
Proof.
  eexists _, _. split; [reflexivity|].
  destruct (load_plugin_returns_registered one_module inherit
              "blink" None true ∅ clean _ _ eq_refl) as [H1 H2].
  split; [exact H1|exact (proj1 (H2 eq_refl))].
Defined.

Lemma load_plugin_keeps_registry_witness :
  (load_plugin one_module inherit "gps" (Some "site") true ∅ clean).2
    = LoadRaised ImportError ∧
  registry (load_plugin one_module inherit "gps" (Some "site") true ∅ clean).1
    = registry clean.
Proof.
  split; [reflexivity|].
  apply load_plugin_keeps_registry. right. reflexivity.
Defined.


End Loader.

(** ** [PluginInterface.configure] (plugins/__init__.py, 27-37) *)

Module PluginConfigure.

(** The types an option can be declared with. In Python [bool] is a
    subclass of [int], and every value is an [object]. *)
Inductive PyType := TInt | TStr | TBool | TNoneType | TObject.

(** [isinstance(value, t)] *)
Definition value_isinstance (v : Registry.PyValue) (t : PyType) : bool :=
  match t, v with
  | TObject, _ => true
  | TInt, Registry.VInt _ => true
  | TInt, Registry.VBool _ => true
  | TStr, Registry.VStr _ => true
  | TBool, Registry.VBool _ => true
  | TNoneType, Registry.VNone => true
  | _, _ => false
  end.

(** The class attribute [options]: a list of names (the default is the
    empty list) or a dictionary from names to a type or tuple of types. *)
Inductive Options :=
| OptionNames (names : list string)
| OptionTypes (types : gmap string (list PyType)).

(** What [configure] touches of an instance: the attributes [setattr] can
    reach, the flag [_configured], and what has been printed. *)
Record Instance := mkInstance {
  attrs : gmap string Registry.PyValue;
  _configured : bool;
  printed : list string
}.

Section Configure.

(** [lower] is [str.lower]; [read_only] tells the attribute names that
    [setattr] refuses (the properties without a setter, such as
    [configured] and [exiting]); [options] is the class attribute. *)
Context (lower : string → string).
Context (read_only : string → bool).
Context (options : Options).

(** [lkey in self.options] *)
Definition declared_option (lkey : string) : bool :=
  match options with
  | OptionNames names => bool_decide (lkey ∈ names)
  | OptionTypes types => bool_decide (is_Some (types !! lkey))
  end.

(** Lines 31-35: the type test, made only when [options] is a dictionary. *)
Definition type_checks (lkey : string) (value : Registry.PyValue) : bool :=
  match options with
  | OptionNames _ => true
  | OptionTypes types =>
      match types !! lkey with
      | Some dtype => existsb (value_isinstance value) dtype
      | None => true
      end
  end.

Definition setattr (lkey : string) (value : Registry.PyValue) (p : Instance)
  : Instance :=
  mkInstance (<[lkey := value]> (attrs p)) (_configured p) (printed p).

Definition print_invalid (key : string) (p : Instance) : Instance :=
  mkInstance (attrs p) (_configured p) (printed p ++ [key]).

(** [configure] with its keyword arguments, in the order of the
    dictionary. The exception of a refused [setattr] leaves the method. *)
Fixpoint configure (items : list (string * Registry.PyValue)) (p : Instance)
  : Instance * option Exn :=
  match items with
  | [] => (mkInstance (attrs p) true (printed p), None)
  | (key, value) :: rest =>
      let lkey := lower key in
      if declared_option lkey then
        if type_checks lkey value then
          if read_only lkey then (p, Some AttributeError)
          else configure rest (setattr lkey value p)
        else configure rest (print_invalid key p)
      else configure rest p
  end.

(** The assignments [configure] makes, in order, and whether it is stopped
    by a refused [setattr]. *)
Fixpoint assignments (items : list (string * Registry.PyValue))
  : list (string * Registry.PyValue) :=
  match items with
  | [] => []
  | (key, value) :: rest =>
      if declared_option (lower key) && type_checks (lower key) value then
        if read_only (lower key) then []
        else (lower key, value) :: assignments rest
      else assignments rest
  end.

Fixpoint stopped (items : list (string * Registry.PyValue)) : bool :=
  match items with
  | [] => false
  | (key, value) :: rest =>
      if declared_option (lower key) && type_checks (lower key) value then
        if read_only (lower key) then true else stopped rest
      else stopped rest
  end.

Lemma foldl_insert_union (l : list (string * Registry.PyValue))
    (a : gmap string Registry.PyValue) :
  foldl (λ m kv, <[kv.1 := kv.2]> m) a l = list_to_map (reverse l) ∪ a.
Proof.
  revert a. induction l as [|[k v] l IH]; intros a; simpl.
  { by rewrite (left_id_L ∅ (∪)). }
  rewrite IH, reverse_cons, list_to_map_app. simpl.
  rewrite insert_empty, <- (assoc_L (∪)).
  by rewrite <- insert_union_singleton_l.
Qed.

Lemma configure_closed items : ∀ p,
  attrs (configure items p).1 =
    foldl (λ m kv, <[kv.1 := kv.2]> m) (attrs p) (assignments items) ∧
  (configure items p).2 =
    (if stopped items then Some AttributeError else None) ∧
  _configured (configure items p).1 =
    (if stopped items then _configured p else true).
Proof.
  induction items as [|[key value] rest IH]; intros p; simpl; [done|].
  destruct (declared_option (lower key)); simpl; [|exact (IH p)].
  destruct (type_checks (lower key) value); simpl;
    [|exact (IH (print_invalid key p))].
  destruct (read_only (lower key)); simpl; [done|].
  exact (IH (setattr (lower key) value p)).
Qed.

Lemma assignments_sound items lkey v :
  (lkey, v) ∈ assignments items →
  declared_option lkey = true ∧ read_only lkey = false ∧
  type_checks lkey v = true ∧
  ∃ key, (key, v) ∈ items ∧ lower key = lkey.
Proof.
  induction items as [|[key value] rest IH]; simpl; [by intros ?%elem_of_nil|].
  destruct (declared_option (lower key)) eqn:Hd; simpl.
  - destruct (type_checks (lower key) value) eqn:Ht; simpl.
    + destruct (read_only (lower key)) eqn:Hr; [by intros ?%elem_of_nil|].
      intros [[= -> ->]|Hin]%elem_of_cons.
      * split_and!; try done. exists key. split; [left|done].
      * destruct (IH Hin) as (?&?&?&k&?&?). split_and!; try done.
        exists k. split; [by right|done].
    + intros Hin. destruct (IH Hin) as (?&?&?&k&?&?). split_and!; try done.
      exists k. split; [by right|done].
  - intros Hin. destruct (IH Hin) as (?&?&?&k&?&?). split_and!; try done.
    exists k. split; [by right|done].
Qed.




End Configure.

(** A plugin with two typed options, configured with a key in capitals, a
    boolean for an [int], a string for an [int], and an unknown key. *)
Definition ascii_lower (s : string) : string :=
  if String.eqb s "PIN" then "pin" else s.

Definition gpio_options : Options :=
  OptionTypes {[ "pin" := [TInt]; "mode" := [TStr] ]}.

Definition no_read_only (name : string) : bool := false.

Definition blank : Instance := mkInstance ∅ false [].

Definition sample_items : list (string * Registry.PyValue) :=
  [("pin", Registry.VInt 11); ("PIN", Registry.VBool true);
   ("mode", Registry.VInt 3); ("colour", Registry.VStr "red")].

Lemma sample_configured :
  attrs (configure ascii_lower no_read_only gpio_options sample_items blank).1
    !! "pin" = Some (Registry.VBool true) ∧
  attrs (configure ascii_lower no_read_only gpio_options sample_items blank).1
    !! "mode" = None ∧
  stopped ascii_lower no_read_only gpio_options sample_items = false.
Proof. split_and!; vm_compute; reflexivity. Qed.



End PluginConfigure.

(** ** The source supervisor: [SerialLogger.run] (SerialLogger.py, 273-302) *)

Module Supervisor.

Inductive Target := led_signaler | usb_utility | device_listener.

(** A [threading.Thread] object. A thread is alive from [start()] until its
    target returns. *)
Record Thread := mkThread {
  name : string;
  target : Target;
  is_alive : bool
}.

(** [objects]: every thread object constructed so far, a thread's identity
    being its position; [threads]: the local list of [run]. *)
Record State := mkState {
  device : string;
  exit_signal : bool;
  objects : list Thread;
  threads : list nat
}.

Definition alive_in (objs : list Thread) (i : nat) : bool :=
  match objs !! i with
  | Some t => is_alive t
  | None => false
  end.

(** [[t.name for t in threads]] *)
Definition names (objs : list Thread) (ids : list nat) : list string :=
  omap (λ i, name <$> objs !! i) ids.

(** Lines 274-285: the two utility threads are started and tracked. *)
Definition start (dev : string) : State :=
  mkState dev false
    [mkThread "ledsignal" led_signaler true;
     mkThread "usbutility" usb_utility true]
    [0; 1].

(** Lines 289-295: one pass of the loop body. *)
Definition poll (st : State) : State :=
  let live := filter (λ i, alive_in (objects st) i = true) (threads st) in
  if bool_decide (device st ∈ names (objects st) live)
  then mkState (device st) (exit_signal st) (objects st) live
  else mkState (device st) (exit_signal st)
         (objects st ++ [mkThread (device st) device_listener true])
         (live ++ [length (objects st)]).

Definition terminate (t : Thread) : Thread :=
  mkThread (name t) (target t) false.

(** The target of thread [i] returns (a listener after a serial error, the
    LED thread when no GPIO module is present, ...). *)
Definition finish (i : nat) (st : State) : State :=
  mkState (device st) (exit_signal st)
    (alter terminate i (objects st)) (threads st).

Definition set_exit (st : State) : State :=
  mkState (device st) true (objects st) (threads st).

(** What can happen next: the supervisor reaches its loop head, a thread
    ends, somebody sets the exit signal. Once the signal is set the loop
    is left ([clean_exit] then joins the tracked threads) and no further
    pass is made. *)
Inductive Action := Poll | Finish (i : nat) | SetExit.

Definition step (a : Action) (st : State) : State :=
  match a with
  | Poll => if exit_signal st then st else poll st
  | Finish i => finish i st
  | SetExit => set_exit st
  end.

Fixpoint exec (acts : list Action) (st : State) : State :=
  match acts with
  | [] => st
  | a :: rest => exec rest (step a st)
  end.

(** At most one live ingestion thread per source identifier. *)
Definition one_live_listener_per_source (st : State) : Prop :=
  ∀ i j ti tj,
    objects st !! i = Some ti → objects st !! j = Some tj →
    target ti = device_listener → target tj = device_listener →
    name ti = name tj →
    is_alive ti = true → is_alive tj = true → i = j.

(** What a pass of the loop does about a tracked listener [i] that has
    ended: the entry is dropped, one new listener of the same name is
    constructed, started and tracked, it is a new object, and every other
    live tracked thread is still tracked and is the same object as before. *)
Definition respawns (st : State) (i : nat) (t : Thread) : Prop :=
  objects (poll st) = objects st ++ [mkThread (name t) device_listener true] ∧
  threads (poll st) =
    filter (λ j, alive_in (objects st) j = true) (threads st)
      ++ [length (objects st)] ∧
  (i ∉ threads (poll st)) ∧
  (length (objects st) ≠ i) ∧
  objects st !! length (objects st) = None ∧
  ∀ j, j ∈ threads st → alive_in (objects st) j = true →
       j ∈ threads (poll st) ∧ objects (poll st) !! j = objects st !! j.

Record Inv (st : State) : Prop := mkInv {
  inv_tracked : ∀ i t,
    objects st !! i = Some t → is_alive t = true → i ∈ threads st;
  inv_unique : ∀ i t j t',
    i ∈ threads st → objects st !! i = Some t → name t = device st →
    j ≠ i → objects st !! j = Some t' → name t' = device st →
    is_alive t' = false;
  inv_valid : ∀ i, i ∈ threads st → i < length (objects st);
  inv_named : ∀ i t,
    objects st !! i = Some t → target t = device_listener →
    name t = device st
}.

Lemma elem_of_names objs ids s :
  s ∈ names objs ids ↔ ∃ i t, i ∈ ids ∧ objs !! i = Some t ∧ name t = s.
Proof.
  unfold names. rewrite list_elem_of_omap. split.
  - intros (i & Hi & Hn). destruct (objs !! i) as [t|] eqn:E; simplify_eq/=.
    eauto.
  - intros (i & t & Hi & Ht & Hn). exists i. rewrite Ht. simpl. by subst.
Qed.

Lemma alive_in_true objs i :
  alive_in objs i = true ↔ ∃ t, objs !! i = Some t ∧ is_alive t = true.
Proof.
  unfold alive_in. destruct (objs !! i) as [t|]; naive_solver.
Qed.

Lemma elem_of_live (objs : list Thread) (ids : list nat) (i : nat) :
  i ∈ filter (λ j, alive_in objs j = true) ids ↔
  alive_in objs i = true ∧ i ∈ ids.
Proof. apply (list_elem_of_filter (λ j, alive_in objs j = true)). Qed.

Lemma lookup_finish k st i t :
  objects (finish k st) !! i = Some t →
  ∃ t0, objects st !! i = Some t0 ∧ name t = name t0 ∧
        target t = target t0 ∧ (is_alive t = true → is_alive t0 = true).
Proof.
  simpl. destruct (decide (k = i)) as [->|Hne].
  - rewrite list_lookup_alter_eq. destruct (objects st !! i) as [t0|]; [|done].
    intros [= <-]. exists t0. by repeat split.
  - rewrite list_lookup_alter_ne by done. intros H. exists t. by repeat split.
Qed.

Lemma Inv_start dev : Inv (start dev).
Proof.
  split; simpl.
  - intros [|[|i]] t Ht _; set_solver.
  - intros i t j t' _ Hi Hn Hne Hj Hn'.
    destruct i as [|[|i]], j as [|[|j]]; simplify_eq/=; try done.
  - intros i Hi. assert (i = 0 ∨ i = 1) as [-> | ->] by set_solver; lia.
  - intros [|[|i]] t Ht; simplify_eq/=; done.
Qed.

Lemma Inv_finish k st : Inv st → Inv (finish k st).
Proof.
  intros [HA HB HC HD]. split.
  - intros i t Ht Hal. apply lookup_finish in Ht as (t0 & H0 & _ & _ & Hl).
    simpl. eauto.
  - intros i t j t' Hi Ht Hn Hne Ht' Hn'. simpl in Hi, Hn, Hn'.
    apply lookup_finish in Ht as (t0 & H0 & Hn0 & _ & _).
    apply lookup_finish in Ht' as (t0' & H0' & Hn0' & _ & Hl').
    destruct (is_alive t') eqn:E; [|done].
    assert (is_alive t0' = false) as Hd by (apply (HB i t0 j t0'); auto; congruence).
    rewrite Hl' in Hd; done.
  - intros i Hi. simpl. rewrite length_alter. by apply HC.
  - intros i t Ht Htg. apply lookup_finish in Ht as (t0 & H0 & Hn0 & Htg0 & _).
    simpl. rewrite Hn0. apply (HD i); congruence.
Qed.

Lemma Inv_poll st : Inv st → Inv (poll st).
Proof.
  intros [HA HB HC HD]. unfold poll.
  set (live := filter _ (threads st)).
  assert (Hlive : ∀ i, i ∈ live ↔ alive_in (objects st) i = true ∧ i ∈ threads st)
    by (intros i; apply elem_of_live).
  case_bool_decide as Hin; split; simpl.
  - intros i t Ht Hal. apply Hlive. split; [|by eauto].
    apply alive_in_true; eauto.
  - intros i t j t' Hi. apply HB. by apply Hlive.
  - intros i Hi. apply HC. by apply Hlive.
  - done.
  - intros i t Ht Hal. apply elem_of_app.
    destruct (decide (i < length (objects st))) as [Hlt|Hge].
    + left. rewrite lookup_app_l in Ht by done. apply Hlive.
      split; [apply alive_in_true|]; eauto.
    + right. apply lookup_lt_Some in Ht. rewrite length_app in Ht. simpl in Ht.
      apply list_elem_of_singleton. lia.
  - intros i t j t' Hi Ht Hn Hne Ht' Hn'.
    apply elem_of_app in Hi as [Hi|Hi].
    + exfalso. apply Hin. apply Hlive in Hi as [Hal Htr].
      rewrite lookup_app_l in Ht by by apply HC.
      apply elem_of_names. exists i, t. split; [by apply Hlive|done].
    + apply list_elem_of_singleton in Hi as ->.
      assert (j < length (objects st)) as Hlt.
      { apply lookup_lt_Some in Ht'. rewrite length_app in Ht'. simpl in Ht'. lia. }
      rewrite lookup_app_l in Ht' by done.
      destruct (is_alive t') eqn:E; [|done].
      exfalso. apply Hin. apply elem_of_names. exists j, t'.
      split; [|done]. apply Hlive. split; [apply alive_in_true|]; eauto.
  - intros i Hi. rewrite length_app. simpl.
    apply elem_of_app in Hi as [Hi|Hi].
    + apply Hlive in Hi as [_ Hi]. apply HC in Hi. lia.
    + apply list_elem_of_singleton in Hi. lia.
  - intros i t Ht Htg.
    destruct (decide (i < length (objects st))) as [Hlt|Hge].
    + rewrite lookup_app_l in Ht by done. eauto.
    + rewrite lookup_app_r in Ht by lia.
      destruct (i - length (objects st)) as [|n]; simplify_eq/=; done.
Qed.

Lemma Inv_step a st : Inv st → Inv (step a st).
Proof.
  destruct a; simpl; intros H.
  - destruct (exit_signal st); [done|by apply Inv_poll].
  - by apply Inv_finish.
  - by destruct H.
Qed.

Lemma Inv_exec acts : ∀ st, Inv st → Inv (exec acts st).
Proof.
  induction acts as [|a rest IH]; intros st H; simpl; [done|].
  by apply IH, Inv_step.
Qed.

Lemma Inv_one_live st : Inv st → one_live_listener_per_source st.
Proof.
  intros [HA HB HC HD] i j ti tj Hi Hj Hti Htj Hn Hli Hlj.
  destruct (decide (j = i)) as [->|Hne]; [done|].
  assert (is_alive tj = false); [|congruence].
  apply (HB i ti j tj); eauto.
Qed.

Lemma Inv_respawns st i t :
  Inv st → i ∈ threads st → objects st !! i = Some t →
  target t = device_listener → is_alive t = false →
  respawns st i t.
Proof.
  intros [HA HB HC HD] Hi Ht Htg Hdead.
  assert (Hname : name t = device st) by eauto.
  assert (Hlive : ∀ j, j ∈ filter (λ j, alive_in (objects st) j = true) (threads st)
                       ↔ alive_in (objects st) j = true ∧ j ∈ threads st)
    by (intros j; apply elem_of_live).
  assert (Hnot : device st ∉ names (objects st)
            (filter (λ j, alive_in (objects st) j = true) (threads st))).
  { intros (j & t' & Hj & Ht' & Hn')%elem_of_names.
    apply Hlive in Hj as [Hal Hj].
    apply alive_in_true in Hal as (t'' & Ht'' & Hal).
    rewrite Ht' in Ht''. injection Ht'' as <-.
    destruct (decide (j = i)) as [->|Hne]; [congruence|].
    assert (is_alive t' = false) by eauto. congruence. }
  unfold respawns, poll. rewrite bool_decide_eq_false_2 by done. simpl.
  rewrite Hname. split_and!; try done.
  - intros [Hin|Hin]%elem_of_app.
    + apply Hlive in Hin as [Hal _]. unfold alive_in in Hal.
      rewrite Ht in Hal. congruence.
    + apply list_elem_of_singleton in Hin. apply HC in Hi. lia.
  - apply HC in Hi. lia.
  - by apply lookup_ge_None.
  - intros j Hj Hal. split.
    + apply elem_of_app. left. by apply Hlive.
    + apply lookup_app_l. by apply HC.
Qed.


Definition crashed_once : list Action := [Poll; Finish 2].


(** *** [clean_exit] (SerialLogger.py, 110-122) *)

(** The supervisor inside [clean_exit]: the exit signal is set, and the
    threads of the list are still to be visited by the [for] loop. *)
Record Exiting := mkExiting {
  ex_state : State;
  to_join : list nat
}.

(** Line 116, and the loop about to start on the tracked threads. *)
Definition clean_exit (st : State) : Exiting :=
  mkExiting (set_exit st) (threads st).

(** Lines 118-121 for the next thread: [join] returns once the thread has
    ended ([None]: still blocked, or the loop is over). *)
Definition join_next (x : Exiting) : option Exiting :=
  match to_join x with
  | [] => None
  | i :: rest =>
      if alive_in (objects (ex_state x)) i then None
      else Some (mkExiting (ex_state x) rest)
  end.

(** [clean_exit] has reached [return 0]. *)
Definition returned (x : Exiting) : bool :=
  match to_join x with [] => true | _ => false end.

Inductive ExitAction := Join | Ends (i : nat).

Definition exit_move (a : ExitAction) (x : Exiting) : Exiting :=
  match a with
  | Join => default x (join_next x)
  | Ends i => mkExiting (finish i (ex_state x)) (to_join x)
  end.

Fixpoint exit_run (acts : list ExitAction) (x : Exiting) : Exiting :=
  match acts with
  | [] => x
  | a :: rest => exit_run rest (exit_move a x)
  end.

(** *** Inside a pass: where [clean_exit] can be entered

    [run] calls [clean_exit] at line 302, when the loop test finds the exit
    signal set, and at line 297, when [KeyboardInterrupt] arrives inside
    the [try] block of a pass. The pass is therefore cut at the points
    between which the tracked list and the thread objects change. *)

(** Where [run] is: at the loop test (or in the sleep that precedes it),
    after the list has been filtered (line 291), or after the new listener
    [i] has been started (line 294) and before it is appended (line 295).
    A thread object that is constructed and not yet started is not alive
    and not tracked; it is not recorded. *)
Inductive Point := AtHead | Filtered | Started (i : nat).

Record Running := mkRunning {
  sup : State;
  at_point : Point
}.

(** The next statement of [run]. *)
Definition advance (r : Running) : Running :=
  let st := sup r in
  match at_point r with
  | AtHead =>
      if exit_signal st then r
      else
        mkRunning
          (mkState (device st) (exit_signal st) (objects st)
             (filter (λ i, alive_in (objects st) i = true) (threads st)))
          Filtered
  | Filtered =>
      if bool_decide (device st ∈ names (objects st) (threads st))
      then mkRunning st AtHead
      else
        mkRunning
          (mkState (device st) (exit_signal st)
             (objects st ++ [mkThread (device st) device_listener true])
             (threads st))
          (Started (length (objects st)))
  | Started i =>
      mkRunning
        (mkState (device st) (exit_signal st) (objects st) (threads st ++ [i]))
        AtHead
  end.

(** What can happen next: [run] executes its next statement, a thread
    ends, somebody sets the exit signal. *)
Inductive Move := Advance | ThreadEnds (i : nat) | ExitSet.

Definition move (m : Move) (r : Running) : Running :=
  match m with
  | Advance => advance r
  | ThreadEnds i => mkRunning (finish i (sup r)) (at_point r)
  | ExitSet => mkRunning (set_exit (sup r)) (at_point r)
  end.

Fixpoint moves (ms : list Move) (r : Running) : Running :=
  match ms with
  | [] => r
  | m :: rest => moves rest (move m r)
  end.

Definition begin (dev : string) : Running := mkRunning (start dev) AtHead.

(** A pass made of these statements, with nothing in between, is the
    pass [poll]. *)
Lemma poll_in_statements st :
  exit_signal st = false →
  let r := advance (advance (mkRunning st AtHead)) in
  match at_point r with
  | Started _ => advance r
  | _ => r
  end = mkRunning (poll st) AtHead.
Proof.
  intros Hs. cbv zeta. unfold poll.
  destruct (bool_decide (device st ∈ names (objects st)
              (filter (λ i, alive_in (objects st) i = true) (threads st))))
    eqn:E;
    unfold advance; cbn [sup at_point objects threads device exit_signal];
    rewrite Hs; cbn [sup at_point objects threads device exit_signal];
    rewrite E; cbn [sup at_point objects threads device exit_signal];
    reflexivity.
Qed.

(** Every live thread is tracked, but for the listener that has been
    started and not yet appended. *)
Definition tracked_but_started (r : Running) : Prop :=
  ∀ i t, objects (sup r) !! i = Some t → is_alive t = true →
         i ∈ threads (sup r) ∨ at_point r = Started i.

Lemma untracked_only_started_begin dev : tracked_but_started (begin dev).
Proof. intros i t Ht Ha. left. by eapply (inv_tracked _ (Inv_start dev)). Qed.

Lemma untracked_only_started_move m r :
  tracked_but_started r → tracked_but_started (move m r).
Proof.
  intros H. destruct m as [|k|]; simpl.
  - unfold advance. destruct (at_point r) as [| |j] eqn:Hp.
    + destruct (exit_signal (sup r)); [done|].
      intros i t Ht Ha. simpl in *. left. apply elem_of_live. split.
      * apply alive_in_true. eauto.
      * destruct (H i t Ht Ha) as [?|Hst]; [done|]. by rewrite Hp in Hst.
    + case_bool_decide.
      * intros i t Ht Ha. simpl in *.
        destruct (H i t Ht Ha) as [?|Hst]; [by left|]. by rewrite Hp in Hst.
      * intros i t Ht Ha. simpl in *.
        destruct (decide (i < length (objects (sup r)))) as [Hlt|Hge].
        -- rewrite lookup_app_l in Ht by done.
           destruct (H i t Ht Ha) as [?|Hst]; [by left|]. by rewrite Hp in Hst.
        -- right. apply lookup_lt_Some in Ht. rewrite length_app in Ht.
           simpl in Ht. f_equal. lia.
    + intros i t Ht Ha. simpl in *. left. apply elem_of_app.
      destruct (H i t Ht Ha) as [?|Hst]; [by left|].
      rewrite Hp in Hst. injection Hst as <-. right.
      by apply list_elem_of_singleton.
  - intros i t Ht Ha. simpl in Ht.
    apply lookup_finish in Ht as (t0 & H0 & _ & _ & Hl). simpl. eauto.
  - done.
Qed.

Lemma untracked_only_started_moves ms : ∀ r,
  tracked_but_started r → tracked_but_started (moves ms r).
Proof.
  induction ms as [|m rest IH]; intros r H; simpl; [done|].
  by apply IH, untracked_only_started_move.
Qed.

(** Inside [clean_exit]: the signal is set, and whatever is alive is still
    to be joined, but for the threads that [spared] lets off. *)
Definition joining (spared : nat → Prop) (x : Exiting) : Prop :=
  exit_signal (ex_state x) = true ∧
  ∀ i t, objects (ex_state x) !! i = Some t → is_alive t = true →
         i ∈ to_join x ∨ spared i.

Lemma joining_move spared a x :
  joining spared x → joining spared (exit_move a x).
Proof.
  intros Hx. pose proof Hx as [Hs Hj]. destruct a as [|k]; simpl.
  - unfold join_next. destruct (to_join x) as [|i rest] eqn:Hq; simpl;
      [done|].
    destruct (alive_in (objects (ex_state x)) i) eqn:Ha; simpl;
      [done|].
    split; [done|]. simpl. intros j t Ht Hal.
    destruct (Hj j t Ht Hal) as [Hin|Hsp]; [|by right].
    apply elem_of_cons in Hin as [->|Hin]; [|by left].
    unfold alive_in in Ha. rewrite Ht in Ha. congruence.
  - split; [done|]. intros j t Ht Hal.
    apply lookup_finish in Ht as (t0 & H0 & _ & _ & Hl). eauto.
Qed.

Lemma joining_run spared acts : ∀ x,
  joining spared x → joining spared (exit_run acts x).
Proof.
  induction acts as [|a rest IH]; intros x H; simpl; [done|].
  by apply IH, joining_move.
Qed.

(** X14. Wherever [run] is when [clean_exit] is entered (at the end of the
    loop, line 302, or at any point of a pass through the
    [KeyboardInterrupt] handler, line 297), and however the threads end
    meanwhile: when [clean_exit] returns the exit signal is set, and the
    only thread [run] ever started that can still be alive is a listener
    that had been started and not yet appended to the list when
    [clean_exit] was entered. Entered at any other point, [clean_exit]
    returns with no thread alive. *)
Theorem clean_exit_joins_tracked (dev : string) (ms : list Move)
    (exits : list ExitAction) :
  returned (exit_run exits (clean_exit (sup (moves ms (begin dev))))) = true →
  exit_signal
    (ex_state (exit_run exits (clean_exit (sup (moves ms (begin dev))))))
    = true ∧
  ∀ i t,
    objects
      (ex_state (exit_run exits (clean_exit (sup (moves ms (begin dev))))))
      !! i = Some t →
    is_alive t = true →
    at_point (moves ms (begin dev)) = Started i.
Proof.
  intros Hret.
  pose proof (untracked_only_started_moves ms _
                (untracked_only_started_begin dev)) as Ht.
  assert (joining (λ i, at_point (moves ms (begin dev)) = Started i)
            (clean_exit (sup (moves ms (begin dev))))) as H0.
  { split; [done|]. simpl. exact Ht. }
  destruct (joining_run _ exits _ H0) as [Hs Hj]. split; [done|].
  intros i t Hi Ha. destruct (Hj i t Hi Ha) as [Hin|Hsp]; [|done].
  unfold returned in Hret.
  destruct (to_join _); [by apply elem_of_nil in Hin|done].
Qed.

(** The interrupt arrives after the first listener has been started and
    before it is appended; the two utility threads then end. *)
Definition interrupted_at_start : list Move := [Advance; Advance].

Definition wind_down : list ExitAction := [Ends 0; Join; Ends 1; Join].

Lemma clean_exit_joins_tracked_witness :
  returned (exit_run wind_down
              (clean_exit (sup (moves interrupted_at_start
                                  (begin "/dev/ttyS0"))))) = true ∧
  is_alive <$>
    objects (ex_state (exit_run wind_down
               (clean_exit (sup (moves interrupted_at_start
                                   (begin "/dev/ttyS0")))))) !! 2
    = Some true ∧
  at_point (moves interrupted_at_start (begin "/dev/ttyS0")) = Started 2.
Proof.
  split; [reflexivity|]. split; [reflexivity|].
  exact (proj2 (clean_exit_joins_tracked "/dev/ttyS0" interrupted_at_start
                  wind_down eq_refl)
           2 (mkThread "/dev/ttyS0" device_listener true) eq_refl eq_refl).
Defined.

End Supervisor.

(** ** The bulk-copy thread: [SerialLogger.usb_utility]
    (SerialLogger.py, 210-271) *)

Module UsbUtility.

Local Open Scope Z_scope.

(** What the operating system answers during one pass of the loop.
    [None] stands for an [OSError] raised by the call. *)
Record Env := mkEnv {
  exit_requested : bool;              (* self.exit_signal.is_set() *)
  ismount : bool;                     (* os.path.ismount(self.usbdev) *)
  glob : list string;                 (* glob.glob over the log directory *)
  getsize : string → option Z;        (* os.path.getsize *)
  statvfs : option (Z * Z);           (* (f_bsize, f_bavail) *)
  uuid4 : string;                     (* the fresh directory name *)
  mkdir_ok : bool;                    (* os.mkdir(dest_dir) *)
  copy_ok : string → bool             (* shutil.copy(src, dest) *)
}.

Inductive LogLine :=
| Info (text : string)
| Critical (text : string)
| Exception (text : string).

(** The local [copied], the two events, every file copied so far with the
    directory it went to, the log, and whether the thread still runs. *)
Record State := mkState {
  copied : bool;
  usb_signal : bool;
  err_signal : bool;
  transferred : list (string * string);
  log : list LogLine;
  running : bool
}.

Definition idle : State := mkState false false false [] [] true.

(** [get_free] (lines 220-228) *)
Definition get_free (e : Env) : option Z :=
  match statvfs e with
  | Some (blk_size, blk_avail) => Some (blk_size * blk_avail)
  | None => None
  end.

(** Lines 237-243: the files to copy and their total size. *)
Fixpoint copy_size (e : Env) (files : list string) : option Z :=
  match files with
  | [] => Some 0
  | f :: rest =>
      match getsize e f, copy_size e rest with
      | Some n, Some m => Some (n + m)
      | _, _ => None
      end
  end.

(** Lines 256-263: the copy loop; a failing file is logged and skipped. *)
Fixpoint copy_all (e : Env) (dest : string) (files : list string)
  : list (string * string) * list LogLine :=
  match files with
  | [] => ([], [])
  | f :: rest =>
      let '(done, lines) := copy_all e dest rest in
      if copy_ok e f then ((f, dest) :: done, Info "Copying log file" :: lines)
      else (done, Info "Copying log file" :: Exception "Error copying" :: lines)
  end.

Definition died (st : State) : State :=
  mkState (copied st) (usb_signal st) (err_signal st)
          (transferred st) (log st) false.

(** One pass of the [while] loop (lines 230-271). An [OSError] outside the
    copy loop is not handled and ends the thread. *)
Definition pass (e : Env) (st : State) : State :=
  if negb (running st) then st
  else if exit_requested e then died st
  else if negb (ismount e) then
    mkState false (usb_signal st) (err_signal st) (transferred st) (log st) true
  else if copied st then st
  else
    let detected :=
      mkState (copied st) true (err_signal st) (transferred st)
              (log st ++ [Info "USB device detected"]) true in
    match copy_size e (glob e), get_free e with
    | Some size, Some free =>
        if bool_decide (size > free) then
          mkState true true true (transferred st)
            (log detected ++ [Critical "not enough free space to copy logs"])
            true
        else if mkdir_ok e then
          let '(done, lines) := copy_all e (uuid4 e) (glob e) in
          mkState true false (err_signal st) (transferred st ++ done)
            (log detected ++ Info "Files will be copied" :: lines
               ++ [Info "All log files copied to USB device"])
            true
        else
          mkState (copied st) true (err_signal st) (transferred st)
            (log detected ++ [Info "Files will be copied"]) false
    | _, _ => died detected
    end.

Fixpoint passes (es : list Env) (st : State) : State :=
  match es with
  | [] => st
  | e :: rest => passes rest (pass e st)
  end.

(** A mounted stick that is too small for one 100-byte log file, and the
    same stick after room has been made on it. *)
Definition sizes (f : string) : option Z :=
  if String.eqb f "/var/log/dgs/gravity.dat" then Some 100 else None.

Definition full_stick : Env :=
  mkEnv false true ["/var/log/dgs/gravity.dat"] sizes (Some (10, 5))
        "d1" true (λ _, true).

Definition roomy_stick : Env :=
  mkEnv false true ["/var/log/dgs/gravity.dat"] sizes (Some (10, 500))
        "d2" true (λ _, true).

Definition unplugged : Env :=
  mkEnv false false [] sizes None "d3" true (λ _, true).

Lemma copy_all_done e dest files :
  (copy_all e dest files).1 =
  (λ f, (f, dest)) <$> List.filter (copy_ok e) files.
Proof.
  induction files as [|f rest IH]; simpl; [done|].
  destruct (copy_all e dest rest) as [done lines]. simpl in IH.
  destruct (copy_ok e f); simpl; by rewrite IH.
Qed.

Lemma pass_mounted_copied e st :
  ismount e = true → copied st = true →
  copied (pass e st) = true ∧ transferred (pass e st) = transferred st ∧
  err_signal (pass e st) = err_signal st.
Proof.
  intros Hm Hc. unfold pass.
  destruct (running st); simpl; [|done].
  destruct (exit_requested e); simpl; [done|].
  rewrite Hm, Hc. simpl. done.
Qed.

Lemma passes_mounted_copied es : ∀ st,
  Forall (λ e, ismount e = true) es → copied st = true →
  copied (passes es st) = true ∧
  transferred (passes es st) = transferred st ∧
  err_signal (passes es st) = err_signal st.
Proof.
  induction es as [|e rest IH]; intros st Hall Hc; simpl; [done|].
  inversion Hall as [|? ? Hm Hrest]; subst.
  destruct (pass_mounted_copied e st Hm Hc) as (Hc' & Ht' & He').
  destruct (IH (pass e st) Hrest Hc') as (? & ? & ?).
  split_and!; congruence.
Qed.




(** *** What the passes keep *)

Lemma pass_keeps e st :
  (err_signal st = true → err_signal (pass e st) = true) ∧
  transferred st `prefix_of` transferred (pass e st) ∧
  (running st = false → pass e st = st).
Proof.
  unfold pass. destruct (running st) eqn:Hr; simpl; [|done].
  split_and!; [|
    |done]; destruct (exit_requested e); simpl; try done;
    destruct (ismount e); simpl; try done;
    destruct (copied st); simpl; try done;
    destruct (copy_size e (glob e)); simpl; try done;
    destruct (get_free e); simpl; try done;
    case_bool_decide; simpl; try done;
    destruct (mkdir_ok e); simpl; try done;
    destruct (copy_all e (uuid4 e) (glob e)); simpl; try done.
  by apply prefix_app_r.
Qed.

(** X15. Through any sequence of passes of the bulk-copy loop the error
    signal, once set, stays set (nothing in the loop clears it), the record
    of copied files only grows at its end, and once the thread has ended
    nothing changes any more. *)
Theorem usb_passes_keep (es : list Env) (st : State) :
  (err_signal st = true → err_signal (passes es st) = true) ∧
  transferred st `prefix_of` transferred (passes es st) ∧
  (running st = false → passes es st = st).
Proof.
  revert st. induction es as [|e rest IH]; intros st; simpl; [done|].
  destruct (pass_keeps e st) as (H1 & H2 & H3).
  destruct (IH (pass e st)) as (H4 & H5 & H6).
  split_and!.
  - auto.
  - by etrans.
  - intros Hr. rewrite H6; [by apply H3|by rewrite H3].
Qed.

Lemma usb_passes_keep_witness :
  err_signal (pass full_stick idle) = true ∧
  err_signal (passes [unplugged; roomy_stick] (pass full_stick idle)) = true ∧
  transferred (pass full_stick idle) `prefix_of`
    transferred (passes [unplugged; roomy_stick] (pass full_stick idle)).
Proof.
  destruct (usb_passes_keep [unplugged; roomy_stick] (pass full_stick idle))
    as (H1 & H2 & _).
  split; [reflexivity|]. split; [exact (H1 eq_refl)|exact H2].
Defined.

(** X16. A pass that finds the device mounted, not yet handled, with
    room for the files, copies every file whose copy succeeds into the one
    fresh directory, whatever copies failed before or after it, marks the
    device as handled and clears the USB signal; and as long as the device
    then stays mounted no file is copied a second time. *)
Theorem copy_cycle_copies_once (e : Env) (st : State) (size free : Z) :
  running st = true → exit_requested e = false →
  ismount e = true → copied st = false →
  copy_size e (glob e) = Some size → get_free e = Some free →
  size <= free → mkdir_ok e = true →
  transferred (pass e st) =
    transferred st ++
      ((λ f, (f, uuid4 e)) <$> List.filter (copy_ok e) (glob e)) ∧
  copied (pass e st) = true ∧
  usb_signal (pass e st) = false ∧
  err_signal (pass e st) = err_signal st ∧
  ∀ later, Forall (λ e', ismount e' = true) later →
    transferred (passes later (pass e st)) = transferred (pass e st).
Proof.
  intros Hrun Hex Hm Hc Hsz Hfr Hle Hmk.
  pose proof (copy_all_done e (uuid4 e) (glob e)) as Hd.
  assert (copied (pass e st) = true) as Hcop.
  { unfold pass. rewrite Hrun, Hex, Hm, Hc, Hsz, Hfr. simpl.
    rewrite bool_decide_eq_false_2 by lia. rewrite Hmk.
    by destruct (copy_all e (uuid4 e) (glob e)). }
  split_and!; [| done| | |].
  - unfold pass. rewrite Hrun, Hex, Hm, Hc, Hsz, Hfr. simpl.
    rewrite bool_decide_eq_false_2 by lia. rewrite Hmk.
    destruct (copy_all e (uuid4 e) (glob e)) as [done lines].
    simpl in *. by rewrite Hd.
  - unfold pass. rewrite Hrun, Hex, Hm, Hc, Hsz, Hfr. simpl.
    rewrite bool_decide_eq_false_2 by lia. rewrite Hmk.
    by destruct (copy_all e (uuid4 e) (glob e)).
  - unfold pass. rewrite Hrun, Hex, Hm, Hc, Hsz, Hfr. simpl.
    rewrite bool_decide_eq_false_2 by lia. rewrite Hmk.
    by destruct (copy_all e (uuid4 e) (glob e)).
  - intros later Hall.
    by destruct (passes_mounted_copied later _ Hall Hcop) as (_ & -> & _).
Qed.

Definition flaky_stick : Env :=
  mkEnv false true ["/var/log/dgs/a.dat"; "/var/log/dgs/b.dat";
                    "/var/log/dgs/c.dat"]
        (λ _, Some 10) (Some (512, 8)) "d4" true
        (λ f, negb (String.eqb f "/var/log/dgs/b.dat")).

Lemma copy_cycle_copies_once_witness :
  transferred (pass flaky_stick idle) =
    [("/var/log/dgs/a.dat", "d4"); ("/var/log/dgs/c.dat", "d4")] ∧
  usb_signal (pass flaky_stick idle) = false ∧
  transferred (passes [flaky_stick; flaky_stick] (pass flaky_stick idle)) =
    transferred (pass flaky_stick idle).
Proof.
  destruct (copy_cycle_copies_once flaky_stick idle 30 4096
              eq_refl eq_refl eq_refl eq_refl eq_refl eq_refl
              ltac:(discriminate) eq_refl) as (H1 & _ & H3 & _ & H5).
  split; [exact H1|]. split; [exact H3|].
  apply H5. repeat constructor.
Defined.

(** X17. The USB signal, once set, is cleared only by a pass that
    completes a copy cycle: not by a capacity error, not by the device
    being unmounted, not by the thread ending. *)
Theorem usb_signal_cleared_only_by_copy (e : Env) (st : State) :
  usb_signal st = true → usb_signal (pass e st) = false →
  running st = true ∧ exit_requested e = false ∧
  ismount e = true ∧ copied st = false ∧ mkdir_ok e = true ∧
  copied (pass e st) = true ∧
  ∃ size free, copy_size e (glob e) = Some size ∧
               get_free e = Some free ∧ size <= free.
Proof.
  intros Hu. unfold pass.
  destruct (running st); simpl; [|congruence].
  destruct (exit_requested e); simpl; [congruence|].
  destruct (ismount e); simpl; [|congruence].
  destruct (copied st); simpl; [congruence|].
  destruct (copy_size e (glob e)) as [size|]; simpl; [|done].
  destruct (get_free e) as [free|]; simpl; [|done].
  case_bool_decide as Hgt; simpl; [done|].
  destruct (mkdir_ok e); simpl; [|done].
  destruct (copy_all e (uuid4 e) (glob e)) as [done lines]. simpl.
  intros _. split_and!; try done. exists size, free. split_and!; try done; lia.
Qed.

Lemma usb_signal_cleared_only_by_copy_witness :
  usb_signal (pass full_stick idle) = true ∧
  usb_signal (pass roomy_stick (pass unplugged (pass full_stick idle))) = false ∧
  copied (pass roomy_stick (pass unplugged (pass full_stick idle))) = true.
Proof.
  assert (usb_signal (pass unplugged (pass full_stick idle)) = true) as Hu
    by reflexivity.
  destruct (usb_signal_cleared_only_by_copy roomy_stick
              (pass unplugged (pass full_stick idle)) Hu eq_refl)
    as (_ & _ & _ & _ & _ & Hc & _).
  split; [reflexivity|]. split; [reflexivity|exact Hc].
Defined.

End UsbUtility.

(** ** The serial listener: [SerialLogger.decode] and
    [SerialLogger.device_listener] (SerialLogger.py, 124-166) *)

Module Listener.

(** A Python [str] is a sequence of code points, a [bytes] object a sequence
    of bytes. *)
Definition Str := list N.
Definition Bytes := list Byte.byte.

(** What [decode] can be handed: a [str], a [bytes] object, or an object
    without a [decode] attribute (such as [None]). *)
Inductive Arg := PyStr (s : Str) | PyBytes (b : Bytes) | PyOther.

(** How a call of [decode] ends: with a [str], with [None], or with the
    [UnicodeDecodeError] of the second attempt, which nothing catches. *)
Inductive Decoded := Text (s : Str) | NoneValue | UnicodeDecodeError.

(** [c in '\r\n'] *)
Definition crlf (c : N) : bool := (c =? 13)%N || (c =? 10)%N.

Fixpoint lstrip (s : Str) : Str :=
  match s with
  | [] => []
  | c :: rest => if crlf c then lstrip rest else s
  end.

Definition rstrip (s : Str) : Str := reverse (lstrip (reverse s)).

(** [s.strip('\r\n')]: leading and trailing carriage returns and line feeds
    are removed. *)
Definition strip (s : Str) : Str := rstrip (lstrip s).

(** [x not in illegal] with [illegal = [0, 255]] *)
Definition legal (x : Byte.byte) : bool :=
  negb (Byte.eqb x Byte.x00 || Byte.eqb x Byte.xff).

Inductive Read := Line (b : Bytes) | SerialException.

Inductive Event :=
| LogException
| LogData (s : Str)
| SetDataSignal
| LogDebug (s : Str)
| LogInfo
| Close.

(** [Returned n]: the listener returned [n]; [Uncaught]: it was ended by an
    exception that it does not handle. *)
Inductive Code := Returned (n : Z) | Uncaught.

Section Decode.

(** [bytes.decode(encoding)]; [None]: it raises [UnicodeDecodeError]. *)
Context (codec : Bytes → option Str).

(** [SerialLogger.decode] (SerialLogger.py, 124-135) *)
Definition decode (bytearr : Arg) : Decoded :=
  match bytearr with
  | PyStr s => Text s
  | PyBytes b =>
      match codec b with
      | Some s => Text (strip s)
      | None =>
          match codec (List.filter legal b) with
          | Some s => Text s
          | None => UnicodeDecodeError
          end
      end
  | PyOther => NoneValue
  end.

(** The [while] loop of [device_listener] (lines 148-166). [reads] are the
    results of the calls of [handle.readline()] made before the loop finds
    the exit signal set. *)
Fixpoint listen (reads : list Read) : list Event * Code :=
  match reads with
  | [] => ([LogInfo; Close], Returned 0)
  | SerialException :: _ => ([LogException; Close], Returned 1)
  | Line b :: rest =>
      match decode (PyBytes b) with
      | UnicodeDecodeError => ([], Uncaught)
      | NoneValue => listen rest
      | Text [] => listen rest
      | Text data =>
          let '(events, code) := listen rest in
          (LogData data :: SetDataSignal :: LogDebug data :: events, code)
      end
  end.

(** [device_listener] (lines 137-166); [opens]: [serial.Serial(...)] returns
    a handle rather than raising [SerialException]. *)
Definition device_listener (opens : bool) (reads : list Read)
  : list Event * Code :=
  if opens then listen reads else ([LogException], Returned 1).

(** The lines written to the data log. *)
Definition data_lines (events : list Event) : list Str :=
  omap (λ ev, match ev with LogData s => Some s | _ => None end) events.

Definition closes (events : list Event) : nat :=
  length (List.filter (λ ev, match ev with Close => true | _ => false end)
            events).

Definition signals (events : list Event) : nat :=
  length (List.filter
            (λ ev, match ev with SetDataSignal => true | _ => false end)
            events).

(** A read that the loop survives. *)
Definition readable (r : Read) : bool :=
  match r with
  | SerialException => false
  | Line b =>
      match decode (PyBytes b) with UnicodeDecodeError => false | _ => true end
  end.

(** The text of a read, when it has one that is not empty. *)
Definition text_of (r : Read) : option Str :=
  match r with
  | SerialException => None
  | Line b =>
      match decode (PyBytes b) with
      | Text (c :: s) => Some (c :: s)
      | _ => None
      end
  end.

Lemma lstrip_split s :
  ∃ pre, s = pre ++ lstrip s ∧ Forall (λ c, crlf c = true) pre ∧
         ∀ c, head (lstrip s) = Some c → crlf c = false.
Proof.
  induction s as [|c s (pre & Hs & Hpre & Hh)]; simpl.
  - exists []. by split_and!.
  - destruct (crlf c) eqn:E.
    + exists (c :: pre). split_and!; [simpl; by f_equal|by constructor|done].
    + exists []. split_and!; [done|done|]. simpl. by intros ? [= <-].
Qed.

Lemma rstrip_split s :
  ∃ post, s = rstrip s ++ post ∧ Forall (λ c, crlf c = true) post ∧
          ∀ c, last (rstrip s) = Some c → crlf c = false.
Proof.
  unfold rstrip. destruct (lstrip_split (reverse s)) as (pre & Hs & Hpre & Hh).
  exists (reverse pre). split_and!.
  - rewrite <- reverse_app, <- Hs. by rewrite reverse_involutive.
  - by apply Forall_reverse.
  - intros c. rewrite last_reverse. apply Hh.
Qed.

Lemma strip_split s :
  ∃ pre post,
    s = pre ++ strip s ++ post ∧
    Forall (λ c, crlf c = true) pre ∧ Forall (λ c, crlf c = true) post ∧
    (∀ c, head (strip s) = Some c → crlf c = false) ∧
    (∀ c, last (strip s) = Some c → crlf c = false).
Proof.
  unfold strip.
  destruct (lstrip_split s) as (pre & Hs & Hpre & Hh).
  destruct (rstrip_split (lstrip s)) as (post & Ht & Hpost & Hl).
  exists pre, post. split_and!; try done.
  - by rewrite <- Ht.
  - intros c Hc. apply Hh. rewrite Ht.
    destruct (rstrip (lstrip s)); [done|]. done.
Qed.

(** X18. A line that decodes at the first attempt is returned without the
    carriage returns and line feeds at its two ends, and with nothing else
    removed: the result neither starts nor ends with one of them. *)
Theorem decode_strips_line_ends (b : Bytes) (s : Str) :
  codec b = Some s →
  ∃ pre body post,
    decode (PyBytes b) = Text body ∧ s = pre ++ body ++ post ∧
    Forall (λ c, crlf c = true) pre ∧ Forall (λ c, crlf c = true) post ∧
    (∀ c, head body = Some c → crlf c = false) ∧
    (∀ c, last body = Some c → crlf c = false).
Proof.
  intros Hc. destruct (strip_split s) as (pre & post & H).
  exists pre, (strip s), post. simpl. by rewrite Hc.
Qed.

Lemma listen_shape reads :
  match (listen reads).2 with
  | Uncaught => closes (listen reads).1 = 0
  | Returned n =>
      closes (listen reads).1 = 1 ∧ last (listen reads).1 = Some Close ∧
      (n = 0 ∨ n = 1)%Z
  end.
Proof.
  induction reads as [|[b|] rest IH]; simpl.
  - split_and!; auto.
  - destruct (codec b) as [s|]; simpl.
    + destruct (strip s); [done|].
      destruct (listen rest) as [events code]. simpl in *.
      destruct code; [|done]. destruct IH as (? & Hl & ?). split_and!; try done.
      by destruct events.
    + destruct (codec (List.filter legal b)) as [s|]; simpl; [|done].
      destruct s; [done|].
      destruct (listen rest) as [events code]. simpl in *.
      destruct code; [|done]. destruct IH as (? & Hl & ?). split_and!; try done.
      by destruct events.
  - split_and!; auto.
Qed.

Lemma listen_code_line b rest :
  (listen (Line b :: rest)).2 =
  if readable (Line b) then (listen rest).2 else Uncaught.
Proof.
  simpl. destruct (codec b) as [s|]; simpl.
  - destruct (strip s); [done|]. by destruct (listen rest).
  - destruct (codec (List.filter legal b)) as [s|]; simpl; [|done].
    destruct s; [done|]. by destruct (listen rest).
Qed.

Lemma readable_line b :
  readable (Line b) = false ↔ decode (PyBytes b) = UnicodeDecodeError.
Proof. unfold readable. destruct (decode (PyBytes b)); naive_solver. Qed.

Lemma listen_uncaught reads :
  (listen reads).2 = Uncaught ↔
  ∃ good b rest, reads = good ++ Line b :: rest ∧
                 forallb readable good = true ∧
                 decode (PyBytes b) = UnicodeDecodeError.
Proof.
  induction reads as [|[b|] reads IH].
  - split; [done|]. intros (good & b & rest & H & _). by destruct good.
  - rewrite listen_code_line. destruct (readable (Line b)) eqn:Hr.
    + rewrite IH. split.
      * intros (good & b' & rest & -> & Hg & Hd).
        exists (Line b :: good), b', rest. split_and!; [done| |done].
        cbn [forallb]. by rewrite Hr, Hg.
      * intros (good & b' & rest & H & Hg & Hd).
        destruct good as [|g good]; cbn [app forallb] in *; simplify_eq.
        -- apply readable_line in Hd. congruence.
        -- apply andb_true_iff in Hg as [_ Hg]. by eexists _, _, _.
    + split; [|done]. intros _. exists [], b, reads.
      split_and!; [done|done|by apply readable_line].
  - split; [done|]. intros (good & b & rest & H & Hg & _).
    destruct good as [|g good]; cbn [app forallb] in *; simplify_eq.
Qed.

Lemma listen_failed reads :
  (listen reads).2 = Returned 1 ↔
  ∃ good rest, reads = good ++ SerialException :: rest ∧
               forallb readable good = true.
Proof.
  induction reads as [|[b|] reads IH].
  - split; [done|]. intros (good & rest & H & _). by destruct good.
  - rewrite listen_code_line. destruct (readable (Line b)) eqn:Hr.
    + rewrite IH. split.
      * intros (good & rest & -> & Hg).
        exists (Line b :: good), rest. split; [done|].
        cbn [forallb]. by rewrite Hr, Hg.
      * intros (good & rest & H & Hg).
        destruct good as [|g good]; cbn [app forallb] in *; simplify_eq.
        apply andb_true_iff in Hg as [_ Hg]. by eexists _, _.
    + split; [done|]. intros (good & rest & H & Hg).
      destruct good as [|g good]; cbn [app forallb] in *; simplify_eq.
      apply andb_true_iff in Hg as [Hg _]. congruence.
  - split; [|done]. intros _. by exists [], reads.
Qed.

(** X19. The listener closes the serial port exactly once, as its last
    action, on every path on which it returns, and returns 0 or 1. It
    returns 1 exactly when the port cannot be opened or the first read
    that does not give a decodable line raises [SerialException]. When
    instead that read gives a line that cannot be decoded even without its
    0x00 and 0xFF bytes, and only then, the thread is ended by the
    [UnicodeDecodeError], which nothing catches, and the port is never
    closed. When the port cannot be opened nothing is closed. *)
Theorem listener_closes_port (reads : list Read) :
  match (device_listener true reads).2 with
  | Uncaught => closes (device_listener true reads).1 = 0
  | Returned n =>
      closes (device_listener true reads).1 = 1 ∧
      last (device_listener true reads).1 = Some Close ∧
      (n = 0 ∨ n = 1)%Z
  end ∧
  closes (device_listener false reads).1 = 0 ∧
  (device_listener false reads).2 = Returned 1 ∧
  ((device_listener true reads).2 = Uncaught ↔
   ∃ good b rest, reads = good ++ Line b :: rest ∧
                  forallb readable good = true ∧
                  decode (PyBytes b) = UnicodeDecodeError) ∧
  ((device_listener true reads).2 = Returned 1 ↔
   ∃ good rest, reads = good ++ SerialException :: rest ∧
                forallb readable good = true).
Proof.
  split_and!; [apply listen_shape|done|done
              |apply listen_uncaught|apply listen_failed].
Qed.

Lemma listen_returns reads :
  (listen reads).2 = Returned 0 ↔ forallb readable reads = true.
Proof.
  induction reads as [|[b|] rest IH]; simpl; [done| |done].
  destruct (codec b) as [s|]; simpl.
  - destruct (strip s); [done|].
    destruct (listen rest) as [events code]. done.
  - destruct (codec (List.filter legal b)) as [s|]; simpl; [|done].
    destruct s; [done|]. by destruct (listen rest).
Qed.

Lemma listen_lines reads :
  data_lines (listen reads).1 `prefix_of` omap text_of reads ∧
  signals (listen reads).1 = length (data_lines (listen reads).1) ∧
  (forallb readable reads = true →
   data_lines (listen reads).1 = omap text_of reads).
Proof.
  induction reads as [|[b|] rest (IH1 & IH2 & IH3)]; simpl.
  - done.
  - destruct (codec b) as [s|]; simpl.
    + destruct (strip s) as [|c t]; [done|].
      destruct (listen rest) as [events code]. simpl in *.
      split_and!;
        [by apply prefix_cons
        |unfold signals, data_lines in *; simpl; by f_equal|].
      intros H. by rewrite IH3.
    + destruct (codec (List.filter legal b)) as [s|]; simpl.
      * destruct s as [|c t]; [done|].
        destruct (listen rest) as [events code]. simpl in *.
        split_and!;
        [by apply prefix_cons
        |unfold signals, data_lines in *; simpl; by f_equal|].
        intros H. by rewrite IH3.
      * split_and!; [apply prefix_nil|done|done].
  - split_and!; [apply prefix_nil|done|done].
Qed.

(** X20. The listener returns 0 exactly when the port opens and every read
    succeeds and can be decoded. The data log then holds the text of every
    read that has one, once and in the order read; whatever happens, it
    holds a prefix of these, never an empty line, and the data signal is
    set once for each line logged. *)
Theorem listener_logs_each_line (opens : bool) (reads : list Read) :
  ((device_listener opens reads).2 = Returned 0 ↔
   opens = true ∧ forallb readable reads = true) ∧
  data_lines (device_listener opens reads).1 `prefix_of` omap text_of reads ∧
  ((device_listener opens reads).2 = Returned 0 →
   data_lines (device_listener opens reads).1 = omap text_of reads) ∧
  ([] ∉ data_lines (device_listener opens reads).1) ∧
  signals (device_listener opens reads).1 =
    length (data_lines (device_listener opens reads).1).
Proof.
  assert (∀ rs : list Read, [] ∉ omap (M:=list) text_of rs) as Hne.
  { intros rs (r & Hr & Ht)%list_elem_of_omap. destruct r as [b|]; [|done].
    unfold text_of in Ht. destruct (decode (PyBytes b)) as [[|c s]| |]; done. }
  destruct opens; simpl.
  - destruct (listen_lines reads) as (H1 & H2 & H3).
    split_and!; try done.
    + rewrite listen_returns. split; [done|by intros [_ ?]].
    + intros H%listen_returns. auto.
    + intros Hin. destruct H1 as [k Hk]. apply (Hne reads). rewrite Hk.
      apply elem_of_app. by left.
  - split_and!; try done.
    + split; [done|by intros [? _]].
    + apply prefix_nil.
    + apply not_elem_of_nil.
Qed.

End Decode.

(** A codec for witnesses: seven-bit ASCII. *)
Definition ascii (b : Bytes) : option Str :=
  if forallb (λ x, (Byte.to_N x <? 128)%N) b then Some (Byte.to_N <$> b)
  else None.

Definition gravity_line : Bytes :=
  [Byte.x0a; Byte.x24; Byte.x47; Byte.x2c; Byte.x31; Byte.x0d; Byte.x0a].

Lemma decode_strips_line_ends_witness :
  ascii gravity_line = Some [10; 36; 71; 44; 49; 13; 10]%N ∧
  decode ascii (PyBytes gravity_line) = Text [36; 71; 44; 49]%N ∧
  ∃ pre body post,
    decode ascii (PyBytes gravity_line) = Text body ∧
    [10; 36; 71; 44; 49; 13; 10]%N = pre ++ body ++ post ∧
    Forall (λ c, crlf c = true) pre ∧ Forall (λ c, crlf c = true) post ∧
    (∀ c, head body = Some c → crlf c = false) ∧
    (∀ c, last body = Some c → crlf c = false).
Proof.
  split; [reflexivity|]. split; [reflexivity|].
  exact (decode_strips_line_ends ascii gravity_line _ eq_refl).
Defined.

(** A read of one byte that the codec refuses ends the listener. *)
Lemma listener_closes_port_witness :
  (device_listener ascii true
     [Line gravity_line; Line [Byte.x80]; Line gravity_line]).2 = Uncaught ∧
  closes (device_listener ascii true
            [Line gravity_line; Line [Byte.x80]; Line gravity_line]).1 = 0 ∧
  data_lines (device_listener ascii true
                [Line gravity_line; Line [Byte.x80]; Line gravity_line]).1
    = [[36; 71; 44; 49]%N].
Proof.
  pose proof (listener_closes_port ascii
                [Line gravity_line; Line [Byte.x80]; Line gravity_line])
    as (Hshape & _ & _ & Hun & _).
  assert ((device_listener ascii true
             [Line gravity_line; Line [Byte.x80]; Line gravity_line]).2
          = Uncaught) as Hcode.
  { apply Hun. exists [Line gravity_line], [Byte.x80], [Line gravity_line].
    split_and!; reflexivity. }
  split; [exact Hcode|]. rewrite Hcode in Hshape.
  split; [exact Hshape|reflexivity].
Defined.

End Listener.

(** ** The LED thread: [SerialLogger.led_signaler]
    (SerialLogger.py, 168-208) *)

Module LedSignaler.

(** The pins of the three LEDs (SerialLogger.py, 67-69). *)
Definition data_led : nat := 16.
Definition usb_led : nat := 18.
Definition aux_led : nat := 15.

Definition outputs : list nat := [data_led; usb_led; aux_led].

(** The three events as one pass of the loop finds them. *)
Record Signals := mkSignals {
  usb_signal : bool;
  data_signal : bool;
  err_signal : bool
}.

(** What the thread does to the GPIO module, the data signal and the log
    (the sleeps between two writes are left out). *)
Inductive Op :=
| Setwarnings
| Setmode
| Setup (pin : nat)
| Output (pin : nat) (value : bool)
| ClearData
| Cleanup
| LogWarning
| LogInfo.

#[local] Instance Op_eq_dec : EqDecision Op.
Proof. solve_decision. Defined.

(** [blink_led] (lines 176-183) *)
Definition blink_led (pin : nat) : list Op :=
  [Output pin true; Output pin false].

(** Lines 173-174 and 185-188 *)
Definition startup : list Op :=
  [Setwarnings; Setmode] ++ flat_map (λ pin, Setup pin :: blink_led pin) outputs.

(** One pass of the loop (lines 191-202). *)
Definition pass (s : Signals) : list Op :=
  (if usb_signal s then blink_led usb_led
   else if data_signal s then blink_led data_led ++ [ClearData]
   else [])
  ++ [Output aux_led (err_signal s)].

(** The thread up to the end of its last pass. *)
Definition running (seen : list Signals) : list Op :=
  startup ++ flat_map pass seen.

(** [led_signaler] (lines 168-208). [gpio]: the GPIO module could be
    imported; [seen]: what the passes made before the exit signal is set
    find. The result is [1] without the module and [None] otherwise; the
    calls into the GPIO module are taken to return. *)
Definition led_signaler (gpio : bool) (seen : list Signals)
  : list Op * option Z :=
  if gpio then
    (running seen ++ ((λ pin, Output pin false) <$> outputs)
       ++ [Cleanup; LogInfo], None)
  else ([LogWarning], Some 1%Z).

(** The level each pin was last driven to. *)
Definition drive (pins : gmap nat bool) (op : Op) : gmap nat bool :=
  match op with
  | Output pin value => <[pin := value]> pins
  | _ => pins
  end.

Definition levels (ops : list Op) : gmap nat bool := foldl drive ∅ ops.

Definition count (op : Op) (ops : list Op) : nat :=
  length (List.filter (λ o, bool_decide (o = op)) ops).

Definition lit (aux : bool) : gmap nat bool :=
  {[ data_led := false; usb_led := false; aux_led := aux ]}.

Lemma drive_pass s aux : foldl drive (lit aux) (pass s) = lit (err_signal s).
Proof. destruct s as [[] [] []], aux; vm_compute; reflexivity. Qed.

Lemma last_err s rest aux :
  default aux (err_signal <$> last (s :: rest)) =
  default (err_signal s) (err_signal <$> last rest).
Proof. rewrite last_cons. by destruct (last rest). Qed.

Lemma drive_passes seen : ∀ aux,
  foldl drive (lit aux) (flat_map pass seen) =
  lit (default aux (err_signal <$> last seen)).
Proof.
  induction seen as [|s rest IH]; intros aux; [done|].
  cbn [flat_map]. rewrite foldl_app, drive_pass, IH. by rewrite last_err.
Qed.

(** X21. After the start-up blinks and after every pass of the loop the
    data and USB LEDs are off and the auxiliary LED shows the error signal
    as the last pass found it (off before the first pass); when the thread
    ends all three LEDs are off, and no other pin was ever driven. *)
Theorem led_levels (seen : list Signals) :
  levels (running seen) =
    {[ data_led := false; usb_led := false;
       aux_led := default false (err_signal <$> last seen) ]} ∧
  levels (led_signaler true seen).1 =
    {[ data_led := false; usb_led := false; aux_led := false ]}.
Proof.
  assert (levels (running seen) =
          lit (default false (err_signal <$> last seen))) as H.
  { unfold levels, running. rewrite foldl_app.
    assert (foldl drive ∅ startup = lit false) as -> by (vm_compute; reflexivity).
    apply drive_passes. }
  split; [exact H|].
  unfold led_signaler, levels. cbn [fst]. rewrite foldl_app.
  fold (levels (running seen)). rewrite H.
  destruct (default false (err_signal <$> last seen)); vm_compute; reflexivity.
Qed.

Lemma count_app op l1 l2 : count op (l1 ++ l2) = count op l1 + count op l2.
Proof. unfold count. by rewrite List.filter_app, length_app. Qed.

Lemma count_passes seen :
  count ClearData (flat_map pass seen) =
    length (List.filter (λ s, negb (usb_signal s) && data_signal s) seen) ∧
  count (Output data_led true) (flat_map pass seen) =
    length (List.filter (λ s, negb (usb_signal s) && data_signal s) seen) ∧
  count (Output usb_led true) (flat_map pass seen) =
    length (List.filter usb_signal seen).
Proof.
  induction seen as [|s rest (IH1 & IH2 & IH3)]; [done|].
  cbn [flat_map List.filter]. rewrite !count_app, IH1, IH2, IH3.
  destruct s as [[] [] []]; done.
Qed.

(** X22. The USB signal takes precedence: the data LED blinks, and the
    data signal is cleared, in exactly the passes that find the USB signal
    unset and the data signal set; the USB LED blinks in exactly the passes
    that find the USB signal set (each LED blinks once more at start-up).
    So while the USB signal stays set the data signal is never cleared. *)
Theorem usb_takes_precedence (seen : list Signals) :
  count ClearData (led_signaler true seen).1 =
    length (List.filter (λ s, negb (usb_signal s) && data_signal s) seen) ∧
  count (Output data_led true) (led_signaler true seen).1 =
    S (length (List.filter (λ s, negb (usb_signal s) && data_signal s) seen)) ∧
  count (Output usb_led true) (led_signaler true seen).1 =
    S (length (List.filter usb_signal seen)).
Proof.
  destruct (count_passes seen) as (H1 & H2 & H3).
  unfold led_signaler, running. cbn [fst].
  rewrite !count_app, H1, H2, H3.
  set (shutdown := (λ pin, Output pin false) <$> outputs).
  assert (count ClearData startup = 0 ∧ count ClearData shutdown = 0 ∧
          count ClearData [Cleanup; LogInfo] = 0 ∧
          count (Output data_led true) startup = 1 ∧
          count (Output data_led true) shutdown = 0 ∧
          count (Output data_led true) [Cleanup; LogInfo] = 0 ∧
          count (Output usb_led true) startup = 1 ∧
          count (Output usb_led true) shutdown = 0 ∧
          count (Output usb_led true) [Cleanup; LogInfo] = 0)
    as (-> & -> & -> & -> & -> & -> & -> & -> & ->)
    by (split_and!; vm_compute; reflexivity).
  lia.
Qed.

End LedSignaler.

(** ** The dispatcher: [Dispatcher.run] and [Dispatcher.exit]
    (dispatcher.py, 82-153)

    The routing thread, the thread that calls [exit], the worker and daemon
    threads and the producers run concurrently. Each is cut into atomic
    steps; a schedule (a list of [Action]s) decides who moves next. *)

Module Dispatcher.

(** A daemon plugin class as the routing loop uses it: the [condition]
    classmethod and whether the constructor accepts
    [(context=..., data=item)] ([false]: it raises [TypeError]). *)
Record DaemonClass := mkDaemonClass {
  condition : Item → bool;
  constructs : Item → bool
}.

(** A daemon object that has been started. *)
Record Instance := mkInstance {
  klass : nat;
  data : Item;
  inst_alive : bool
}.

(** What [plugin()], [set_context] and [configure] do for a registered
    regular class (lines 94-100): an instance, one of the four exceptions
    that line 98 catches, or any other exception. *)
Inductive Instantiation :=
| Built (w : Plugin.Worker)
| Skipped
| Fatal (e : Exn).

(** Calls made by the routing thread, in the order it makes them. *)
Inductive Event :=
| EvLog (item : Item)
| EvPut (worker : nat) (item : Item)
| EvCondition (klass : nat) (item : Item)
| EvStart (klass : nat) (inst : nat) (item : Item)
| EvTypeError (klass : nat).

(** Where the routing thread is in [run]. *)
Inductive Pc :=
| LoopHead                                   (* line 111 *)
| Waiting                                    (* line 113 *)
| Spawning (item : Item) (todo : list nat)   (* lines 123-134 *)
| Release                                    (* line 136 *)
| Finished
| Crashed (e : Exn).

(** Where the caller of [exit(join)] is. *)
Inductive ExitPc :=
| NotCalled
| SetSignal (join : bool)                        (* line 145 *)
| Sentinel (join : bool)                         (* lines 146-150 *)
| ExitThreads (join : bool) (todo : list nat)    (* lines 139-140 *)
| ExitDaemons (join : bool) (todo : list nat)    (* lines 141-142 *)
| JoinSelf                                       (* line 153 *)
| ExitReturned (join : bool).

(** [workers] are the plugin instances in [self._threads], [instances] all
    daemon objects started so far; both are identified by position.
    [sink] is what the record sink has taken: the items on which
    [logger.log] was called and returned. (The sink's own thread is in
    [self._threads] too; its class is outside these sources and its [exit]
    is not part of the model.) *)
Record State := mkState {
  runlock : bool;
  sig_exit : bool;
  main_queue : list Item;
  sink : list Item;
  workers : list Plugin.Worker;
  plugin_type_map : gmap Kind (gset nat);
  instances : list Instance;
  live_daemons : gmap nat nat;
  _active_daemons : list nat;
  pc : Pc;
  caller : ExitPc
}.

Definition set_runlock (b : bool) (st : State) : State :=
  mkState b (sig_exit st) (main_queue st) (sink st) (workers st)
    (plugin_type_map st) (instances st) (live_daemons st)
    (_active_daemons st) (pc st) (caller st).

Definition set_sig_exit (st : State) : State :=
  mkState (runlock st) true (main_queue st) (sink st) (workers st)
    (plugin_type_map st) (instances st) (live_daemons st)
    (_active_daemons st) (pc st) (caller st).

Definition set_main_queue (q : list Item) (st : State) : State :=
  mkState (runlock st) (sig_exit st) q (sink st) (workers st)
    (plugin_type_map st) (instances st) (live_daemons st)
    (_active_daemons st) (pc st) (caller st).

Definition set_sink (s : list Item) (st : State) : State :=
  mkState (runlock st) (sig_exit st) (main_queue st) s (workers st)
    (plugin_type_map st) (instances st) (live_daemons st)
    (_active_daemons st) (pc st) (caller st).

Definition set_workers (ws : list Plugin.Worker) (st : State) : State :=
  mkState (runlock st) (sig_exit st) (main_queue st) (sink st) ws
    (plugin_type_map st) (instances st) (live_daemons st)
    (_active_daemons st) (pc st) (caller st).

Definition set_daemons (insts : list Instance) (live : gmap nat nat)
    (st : State) : State :=
  mkState (runlock st) (sig_exit st) (main_queue st) (sink st) (workers st)
    (plugin_type_map st) insts live
    (_active_daemons st) (pc st) (caller st).

Definition set_pc (p : Pc) (st : State) : State :=
  mkState (runlock st) (sig_exit st) (main_queue st) (sink st) (workers st)
    (plugin_type_map st) (instances st) (live_daemons st)
    (_active_daemons st) p (caller st).

Definition set_caller (c : ExitPc) (st : State) : State :=
  mkState (runlock st) (sig_exit st) (main_queue st) (sink st) (workers st)
    (plugin_type_map st) (instances st) (live_daemons st)
    (_active_daemons st) (pc st) c.

(** [v.is_alive()] for the daemon object [i]. *)
Definition instance_alive (insts : list Instance) (i : nat) : bool :=
  match insts !! i with
  | Some x => inst_alive x
  | None => false
  end.

Definition ended (x : Instance) : Instance :=
  mkInstance (klass x) (data x) false.

(** [Thread.is_alive()] of the dispatcher itself. *)
Definition thread_alive (p : Pc) : bool :=
  match p with
  | Finished | Crashed _ => false
  | _ => true
  end.

(** [consumer_set = plugin_type_map.setdefault(ctype, WeakSet());
    consumer_set.add(instance)] (lines 104-105). *)
Definition subscribe (i : nat) (tm : gmap Kind (gset nat)) (ctype : Kind)
  : gmap Kind (gset nat) :=
  <[ctype := {[i]} ∪ default ∅ (tm !! ctype)]> tm.

(** [plugin_type_map.get(type(item), set())] (line 118). *)
Definition subscribers (tm : gmap Kind (gset nat)) (item : Item) : list nat :=
  elements (default ∅ (tm !! type_of item)).

Definition started (w : Plugin.Worker) : Plugin.Worker :=
  Plugin.mkWorker (Plugin.consumerType w) (Plugin.consumer_type w)
    (Plugin.queue w) (Plugin.unfinished_tasks w) (Plugin.exitSig w) true.

(** Lines 118-119: [put] on each subscriber in turn; an exception leaves
    the loop. *)
Fixpoint fan_out (item : Item) (subs : list nat) (ws : list Plugin.Worker)
  : list Plugin.Worker * list Event * option Exn :=
  match subs with
  | [] => (ws, [], None)
  | i :: rest =>
      match ws !! i with
      | None => fan_out item rest ws
      | Some w =>
          match Plugin.put item w with
          | (w', Some e) => (<[i := w']> ws, [EvPut i item], Some e)
          | (w', None) =>
              let '(ws', evs, r) := fan_out item rest (<[i := w']> ws) in
              (ws', EvPut i item :: evs, r)
          end
      end
  end.

Section Run.

Set Default Proof Using "Type".

(** The class-level registry as the run finds it, and the collaborators
    whose code is elsewhere: the registered classes' behaviour, the record
    sink ([log_raises logged item]: [logger.log(item)] raises after [logged]
    has been taken), and [PluginDaemon.exit] ([false]: the call blocks). *)
Context (plugins : list nat) (daemons : list nat).
Context (instantiate : nat → Instantiation).
Context (classes : nat → DaemonClass).
Context (log_raises : list Item → Item → bool).
Context (daemon_exit_returns : bool → Instance → bool).

(** Lines 93-108: instantiate, configure, subscribe and start the regular
    plugins. *)
Fixpoint start_plugins (todo : list nat) (ws : list Plugin.Worker)
    (tm : gmap Kind (gset nat))
  : list Plugin.Worker * gmap Kind (gset nat) * option Exn :=
  match todo with
  | [] => (ws, tm, None)
  | p :: rest =>
      match instantiate p with
      | Skipped => start_plugins rest ws tm
      | Fatal e => (ws, tm, Some e)
      | Built w =>
          start_plugins rest (ws ++ [started w])
            (foldl (subscribe (length ws)) tm (Plugin.consumer_type w))
      end
  end.

(** The state when [run] reaches its loop (line 111): the lock has been
    acquired (line 83 waits until it is free), the plugins are started,
    [live_daemons] is empty, [_active_daemons] is the empty set made by
    [__init__] (line 40). *)
Definition boot : State :=
  match start_plugins plugins [] ∅ with
  | (ws, tm, Some e) => mkState true false [] [] ws tm [] ∅ [] (Crashed e) NotCalled
  | (ws, tm, None) => mkState true false [] [] ws tm [] ∅ [] LoopHead NotCalled
  end.

(** Lines 113-120: wait for an item; log it, then fan it out. *)
Definition get_phase (st : State) : State * list Event :=
  match main_queue st with
  | [] => (set_pc (Spawning PyNone daemons) st, [])
  | item :: rest =>
      let st1 := set_main_queue rest st in
      if log_raises (sink st) item
      then (set_pc (Crashed SinkError) st1, [EvLog item])
      else
        let st2 := set_sink (sink st ++ [item]) st1 in
        match fan_out item (subscribers (plugin_type_map st) item) (workers st) with
        | (ws, evs, Some e) =>
            (set_pc (Crashed e) (set_workers ws st2), EvLog item :: evs)
        | (ws, evs, None) =>
            (set_pc (Spawning item daemons) (set_workers ws st2),
             EvLog item :: evs)
        end
  end.

(** Lines 124-131: the body of the loop over the daemon classes. *)
Definition spawn_one (item : Item) (d : nat) (st : State)
  : State * list Event :=
  match live_daemons st !! d with
  | Some _ => (st, [])
  | None =>
      if condition (classes d) item then
        if constructs (classes d) item then
          (set_daemons (instances st ++ [mkInstance d item true])
             (<[d := length (instances st)]> (live_daemons st)) st,
           [EvCondition d item; EvStart d (length (instances st)) item])
        else (st, [EvCondition d item; EvTypeError d])
      else (st, [EvCondition d item])
  end.

(** Lines 133-134. *)
Definition prune (st : State) : State :=
  set_daemons (instances st)
    (filter (λ kv, instance_alive (instances st) kv.2 = true) (live_daemons st))
    st.

(** One atomic step of the routing thread; [None] when [run] has ended. *)
Definition run_step (st : State) : option (State * list Event) :=
  match pc st with
  | LoopHead =>
      if sig_exit st then Some (set_pc Release st, [])
      else Some (set_pc Waiting st, [])
  | Waiting => Some (get_phase st)
  | Spawning item (d :: todo) =>
      let '(st', evs) := spawn_one item d st in
      Some (set_pc (Spawning item todo) st', evs)
  | Spawning item [] => Some (set_pc LoopHead (prune st), [])
  | Release => Some (set_pc Finished (set_runlock false st), [])
  | Finished | Crashed _ => None
  end.

(** One atomic step of the thread that called [exit(join)]; [None] when it
    is blocked or has nothing to do. The record sink's thread is in
    [self._threads] as well (line 89), so that [_exit_threads] also calls
    its [exit]; that class is outside these sources and the call is not a
    step here (it is taken to return). The theorems below about [exit]
    therefore say what has happened by the time [exit] returns; none of
    them says that it returns. *)
Definition exit_step (st : State) : option State :=
  match caller st with
  | NotCalled | ExitReturned _ => None
  | SetSignal join => Some (set_caller (Sentinel join) (set_sig_exit st))
  | Sentinel join =>
      let st' :=
        if thread_alive (pc st)
        then set_main_queue (main_queue st ++ [PyNone]) st else st in
      Some (set_caller (ExitThreads join (seq 0 (length (workers st)))) st')
  | ExitThreads join (i :: todo) =>
      match workers st !! i with
      | None => Some (set_caller (ExitThreads join todo) st)
      | Some w =>
          match Plugin.exit join w with
          | None => None
          | Some w' =>
              Some (set_caller (ExitThreads join todo)
                      (set_workers (<[i := w']> (workers st)) st))
          end
      end
  | ExitThreads join [] =>
      Some (set_caller (ExitDaemons join (_active_daemons st)) st)
  | ExitDaemons join (d :: todo) =>
      match instances st !! d with
      | None => Some (set_caller (ExitDaemons join todo) st)
      | Some x =>
          if daemon_exit_returns join x
          then Some (set_caller (ExitDaemons join todo) st)
          else None
      end
  | ExitDaemons join [] =>
      Some (set_caller (if join then JoinSelf else ExitReturned join) st)
  | JoinSelf =>
      if thread_alive (pc st) then None
      else Some (set_caller (ExitReturned true) st)
  end.

(** Who moves next. [Produce]: somebody puts an item on the main queue;
    [DaemonEnds], [WorkerEnds]: a thread's [run] returns; [TaskDone]: a
    worker marks an item of its queue as done. *)
Inductive Action :=
| Run
| Exit
| CallExit (join : bool)
| Produce (item : Item)
| DaemonEnds (i : nat)
| TaskDone (w : nat)
| WorkerEnds (w : nat).

Definition step (a : Action) (st : State) : State * list Event :=
  match a with
  | Run => default (st, []) (run_step st)
  | Exit => (default st (exit_step st), [])
  | CallExit join =>
      match caller st with
      | NotCalled => (set_caller (SetSignal join) st, [])
      | _ => (st, [])
      end
  | Produce item => (set_main_queue (main_queue st ++ [item]) st, [])
  | DaemonEnds i =>
      (set_daemons (alter ended i (instances st)) (live_daemons st) st, [])
  | TaskDone w => (set_workers (alter Plugin.task_done w (workers st)) st, [])
  | WorkerEnds w => (set_workers (alter Plugin.finish w (workers st)) st, [])
  end.

Fixpoint exec (acts : list Action) (st : State) : State :=
  match acts with
  | [] => st
  | a :: rest => exec rest (step a st).1
  end.

Fixpoint trace (acts : list Action) (st : State) : list Event :=
  match acts with
  | [] => []
  | a :: rest => (step a st).2 ++ trace rest (step a st).1
  end.

(** Lines 123-131 as a whole, when nothing else moves in between. *)
Fixpoint spawn_loop (item : Item) (todo : list nat) (st : State)
  : State * list Event :=
  match todo with
  | [] => (st, [])
  | d :: rest =>
      let '(st1, ev1) := spawn_one item d st in
      let '(st2, ev2) := spawn_loop item rest st1 in
      (st2, ev1 ++ ev2)
  end.

(** One full pass of the [while] body (lines 112-134), from the wait on
    the queue, when nothing else moves in between. *)
Definition iteration (st : State) : State * list Event :=
  let '(st1, ev1) := get_phase st in
  match pc st1 with
  | Spawning item todo =>
      let '(st2, ev2) := spawn_loop item todo st1 in
      (set_pc LoopHead (prune st2), ev1 ++ ev2)
  | _ => (st1, ev1)
  end.


(** *** How a step can change the daemon bookkeeping *)

Inductive daemon_move (st st' : State) : Prop :=
| dm_same :
    instances st' = instances st → live_daemons st' = live_daemons st →
    daemon_move st st'
| dm_spawn d item :
    live_daemons st !! d = None →
    instances st' = instances st ++ [mkInstance d item true] →
    live_daemons st' = <[d := length (instances st)]> (live_daemons st) →
    daemon_move st st'
| dm_prune :
    instances st' = instances st →
    live_daemons st' =
      filter (λ kv, instance_alive (instances st) kv.2 = true) (live_daemons st) →
    daemon_move st st'
| dm_end i :
    instances st' = alter ended i (instances st) →
    live_daemons st' = live_daemons st →
    daemon_move st st'.

Lemma get_phase_daemons st :
  instances (get_phase st).1 = instances st ∧
  live_daemons (get_phase st).1 = live_daemons st.
Proof.
  unfold get_phase. destruct (main_queue st) as [|item rest]; [done|].
  destruct (log_raises _ _); [done|].
  destruct (fan_out _ _ _) as [[ws evs] [e|]]; done.
Qed.

Lemma spawn_one_move item d st : daemon_move st (spawn_one item d st).1.
Proof.
  unfold spawn_one. destruct (live_daemons st !! d) eqn:E; [by apply dm_same|].
  destruct (condition _ _); [|by apply dm_same].
  destruct (constructs _ _); [|by apply dm_same].
  by apply (dm_spawn _ _ d item).
Qed.

Lemma exit_step_daemons st st' :
  exit_step st = Some st' →
  instances st' = instances st ∧ live_daemons st' = live_daemons st.
Proof.
  unfold exit_step. intros H.
  repeat case_match; simplify_eq/=; done.
Qed.

Lemma run_step_move st st' evs :
  run_step st = Some (st', evs) → daemon_move st st'.
Proof.
  unfold run_step. destruct (pc st) as [| |item [|d todo]| | |].
  - destruct (sig_exit st); intros [= <- <-]; by apply dm_same.
  - intros [= H].
    destruct (get_phase_daemons st) as [Hi Hl]. rewrite H in Hi, Hl.
    by apply dm_same.
  - intros [= <- <-]. by apply dm_prune.
  - pose proof (spawn_one_move item d st) as Hm.
    destruct (spawn_one item d st) as [st1 ev1]. intros [= <- <-].
    simpl in Hm. destruct Hm; [by apply dm_same|by eapply dm_spawn| |];
      [by apply dm_prune|by eapply dm_end].
  - intros [= <- <-]. by apply dm_same.
  - done.
  - done.
Qed.

Lemma step_daemon_move a st : daemon_move st (step a st).1.
Proof.
  destruct a; simpl.
  - destruct (run_step st) as [[st' evs]|] eqn:E; simpl;
      [by eapply run_step_move|by apply dm_same].
  - destruct (exit_step st) as [st'|] eqn:E; simpl; [|by apply dm_same].
    destruct (exit_step_daemons _ _ E). by apply dm_same.
  - destruct (caller st); by apply dm_same.
  - by apply dm_same.
  - by apply (dm_end _ _ i).
  - by apply dm_same.
  - by apply dm_same.
Qed.

(** Every live daemon object is the one recorded for its class. *)
Definition tracked (st : State) : Prop :=
  ∀ i x, instances st !! i = Some x → inst_alive x = true →
         live_daemons st !! klass x = Some i.

Lemma tracked_move st st' : daemon_move st st' → tracked st → tracked st'.
Proof.
  intros Hm Ht i x Hx Hal. destruct Hm as [Hi Hl|d item Hd Hi Hl|Hi Hl|k Hi Hl];
    rewrite Hl; rewrite Hi in Hx.
  - by apply Ht.
  - destruct (decide (i < length (instances st))) as [Hlt|Hge].
    + rewrite lookup_app_l in Hx by done.
      pose proof (Ht i x Hx Hal) as Hlive.
      rewrite lookup_insert_ne; [done|]. intros ->. congruence.
    + rewrite lookup_app_r in Hx by lia.
      assert (i = length (instances st)) as ->.
      { apply lookup_lt_Some in Hx. simpl in Hx. lia. }
      rewrite Nat.sub_diag in Hx. simplify_eq/=. by rewrite lookup_insert_eq.
  - apply map_lookup_filter_Some. split; [by apply Ht|].
    simpl. unfold instance_alive. by rewrite Hx.
  - destruct (decide (k = i)) as [->|Hne].
    + rewrite list_lookup_alter_eq in Hx.
      destruct (instances st !! i); simplify_eq/=.
    + rewrite list_lookup_alter_ne in Hx by done. by apply Ht.
Qed.

Lemma tracked_exec acts : ∀ st, tracked st → tracked (exec acts st).
Proof.
  induction acts as [|a rest IH]; intros st H; simpl; [done|].
  apply IH. eapply tracked_move; [apply step_daemon_move|done].
Qed.

Lemma tracked_boot : tracked boot.
Proof.
  unfold boot. destruct (start_plugins _ _ _) as [[ws tm] [e|]];
    intros i x Hx; simpl in Hx; by rewrite lookup_nil in Hx.
Qed.

Lemma fan_out_events item subs : ∀ ws ev,
  ev ∈ (fan_out item subs ws).1.2 → ∃ i, ev = EvPut i item ∧ i ∈ subs.
Proof.
  clear instantiate classes.
  induction subs as [|i rest IH]; intros ws ev; simpl; [by intros ?%elem_of_nil|].
  destruct (ws !! i) as [w|]; [|intros (j & -> & Hj)%IH; exists j; set_solver].
  destruct (Plugin.put item w) as [w' [e|]]; simpl.
  - intros ->%list_elem_of_singleton. exists i. set_solver.
  - destruct (fan_out item rest (<[i:=w']> ws)) as [[ws' evs] r] eqn:E. simpl.
    intros [->|Hin]%elem_of_cons; [exists i; set_solver|].
    specialize (IH (<[i:=w']> ws) ev). rewrite E in IH.
    destruct (IH Hin) as (j & -> & Hj). exists j. set_solver.
Qed.

Lemma get_phase_events st ev :
  ev ∈ (get_phase st).2 →
  ∃ item rest, main_queue st = item :: rest ∧
    (ev = EvLog item ∨ ∃ i, ev = EvPut i item).
Proof.
  unfold get_phase. destruct (main_queue st) as [|item rest]; simpl;
    [by intros ?%elem_of_nil|].
  intros Hev. exists item, rest. split; [done|].
  destruct (log_raises _ _); simpl in Hev.
  - apply list_elem_of_singleton in Hev. by left.
  - pose proof (fan_out_events item (subscribers (plugin_type_map st) item)
                  (workers st) ev) as Hf.
    destruct (fan_out _ _ _) as [[ws evs] [e|]]; simpl in *;
      apply elem_of_cons in Hev as [->|Hin]; try (by left);
      destruct (Hf Hin) as (i & -> & _); right; eauto.
Qed.

Lemma spawn_one_consults item d st d' item' :
  (EvCondition d' item' ∈ (spawn_one item d st).2 ∨
   ∃ n, EvStart d' n item' ∈ (spawn_one item d st).2) →
  d' = d ∧ item' = item ∧ live_daemons st !! d = None.
Proof.
  clear instantiate.
  unfold spawn_one. destruct (live_daemons st !! d); simpl; [set_solver|].
  destruct (condition _ _); [destruct (constructs _ _)|]; simpl; set_solver.
Qed.

Lemma run_step_consults st st' evs d item :
  run_step st = Some (st', evs) →
  (EvCondition d item ∈ evs ∨ ∃ n, EvStart d n item ∈ evs) →
  live_daemons st !! d = None.
Proof.
  clear instantiate.
  unfold run_step. destruct (pc st) as [| |it [|d0 todo]| | |].
  - destruct (sig_exit st); intros [= <- <-]; set_solver.
  - intros [= H].
    replace evs with (get_phase st).2 by by rewrite H.
    intros [Hev|[n Hev]];
      apply get_phase_events in Hev as (? & ? & _ & [?|[? ?]]); done.
  - intros [= <- <-]. set_solver.
  - pose proof (spawn_one_consults it d0 st d item) as Hc.
    destruct (spawn_one it d0 st) as [st1 ev1]. intros [= <- <-] H.
    by destruct (Hc H) as (-> & _ & ?).
  - intros [= <- <-]. set_solver.
  - done.
  - done.
Qed.

(** C1. In every state that a run can reach, whatever the messages and
    however the other threads are scheduled, two live daemon objects of one
    class are the same object; and whenever the routing thread evaluates a
    class's predicate or starts an instance of it, no instance of that class
    started before is alive. *)
Theorem one_live_daemon_per_class (acts : list Action) :
  (∀ i j x y,
     instances (exec acts boot) !! i = Some x →
     instances (exec acts boot) !! j = Some y →
     klass x = klass y → inst_alive x = true → inst_alive y = true →
     i = j) ∧
  (∀ st' evs d item,
     run_step (exec acts boot) = Some (st', evs) →
     (EvCondition d item ∈ evs ∨ ∃ n, EvStart d n item ∈ evs) →
     ∀ i x, instances (exec acts boot) !! i = Some x → klass x = d →
            inst_alive x = false).
Proof.
  pose proof (tracked_exec acts boot tracked_boot) as Ht. split.
  - intros i j x y Hx Hy Hk Hax Hay.
    pose proof (Ht i x Hx Hax) as H1. pose proof (Ht j y Hy Hay) as H2.
    congruence.
  - intros st' evs d item Hstep Hev i x Hx Hk.
    pose proof (run_step_consults _ _ _ _ _ Hstep Hev) as Hnone.
    destruct (inst_alive x) eqn:E; [|done].
    pose proof (Ht i x Hx E) as H1. congruence.
Qed.


(** *** Routing to the workers *)

(** The items of a sequence that reach the worker's queue, in order: their
    exact type is among the worker's [consumer_type()], so that [run] hands
    them to its [put] (line 118), and [put] finds them instances of
    [consumerType] (plugins/__init__.py, line 45). *)
Definition delivered_to (w : Plugin.Worker) (items : list Item) : list Item :=
  filter (λ m, type_of m ∈ Plugin.consumer_type w ∧
               Plugin.accepts w (type_of m) = true) items.

(** The items of a sequence whose exact type the worker subscribed to. *)
Definition subscribed_in (w : Plugin.Worker) (items : list Item) : list Item :=
  filter (λ m, type_of m ∈ Plugin.consumer_type w) items.

(** The worker's [put] lets through every kind the worker subscribed to. *)
Definition admits_subscribed (w : Plugin.Worker) : Prop :=
  ∀ k, k ∈ Plugin.consumer_type w → Plugin.accepts w k = true.

Definition declared (ws : list Plugin.Worker) : Prop :=
  ∀ j w, ws !! j = Some w → is_Some (Plugin.consumerType w).

(** The routing table lists worker [i] under kind [k] exactly when [k] is
    among the worker's [consumer_type()]. *)
Definition table_of (ws : list Plugin.Worker) (tm : gmap Kind (gset nat)) : Prop :=
  ∀ k i, i ∈ default ∅ (tm !! k) ↔
         ∃ w, ws !! i = Some w ∧ k ∈ Plugin.consumer_type w.

Lemma delivered_to_snoc w items m :
  delivered_to w (items ++ [m]) =
  delivered_to w items ++
    (if bool_decide (type_of m ∈ Plugin.consumer_type w)
        && Plugin.accepts w (type_of m)
     then [m] else []).
Proof.
  unfold delivered_to. rewrite filter_app. f_equal.
  rewrite filter_cons, filter_nil.
  case_bool_decide as Hin; destruct (Plugin.accepts w (type_of m)) eqn:Ha;
    simpl; case_decide as Hd; try done; by destruct Hd.
Qed.

Lemma delivered_to_admitted w items :
  admits_subscribed w → delivered_to w items = subscribed_in w items.
Proof.
  intros Hs. unfold delivered_to, subscribed_in.
  induction items as [|m rest IH]; [done|].
  rewrite !filter_cons, IH.
  destruct (decide (type_of m ∈ Plugin.consumer_type w)) as [Hin|Hout].
  - rewrite decide_True by (split; [done|by apply Hs]). done.
  - rewrite decide_False by (by intros [? _]). done.
Qed.

Lemma subscribe_lookup n tm c k i :
  i ∈ default ∅ (subscribe n tm c !! k) ↔
  i ∈ default ∅ (tm !! k) ∨ (i = n ∧ k = c).
Proof.
  clear instantiate classes.
  unfold subscribe. destruct (decide (c = k)) as [->|Hne].
  - rewrite lookup_insert_eq. simpl. set_solver.
  - rewrite lookup_insert_ne by done. naive_solver.
Qed.

Lemma subscribe_fold n cts : ∀ tm k i,
  i ∈ default ∅ (foldl (subscribe n) tm cts !! k) ↔
  i ∈ default ∅ (tm !! k) ∨ (i = n ∧ k ∈ cts).
Proof.
  clear instantiate classes.
  induction cts as [|c cts IH]; intros tm k i; simpl; [set_solver|].
  rewrite IH, subscribe_lookup. set_solver.
Qed.

Lemma start_plugins_table todo : ∀ ws tm,
  table_of ws tm →
  table_of (start_plugins todo ws tm).1.1 (start_plugins todo ws tm).1.2.
Proof.
  induction todo as [|p rest IH]; intros ws tm Ht; simpl; [done|].
  destruct (instantiate p) as [w| |e]; [|by apply IH|done].
  apply IH. intros k i. rewrite subscribe_fold, (Ht k i). split.
  - intros [(w' & Hw' & Hk)|[-> Hk]].
    + exists w'. split; [|done]. by apply lookup_app_l_Some.
    + exists (started w). split; [|done]. by apply list_lookup_middle.
  - intros (w' & Hw' & Hk). apply lookup_app_Some in Hw' as [Hw'|[Hge Hw']].
    + left. eauto.
    + right. destruct (i - length ws) as [|m] eqn:E; simplify_eq/=.
      split; [lia|done].
Qed.

Lemma table_boot : table_of (workers boot) (plugin_type_map boot).
Proof.
  assert (table_of [] (∅ : gmap Kind (gset nat))) as H0.
  { intros k i. rewrite lookup_empty. simpl. split; [set_solver|].
    intros (w & Hw & _). by rewrite lookup_nil in Hw. }
  pose proof (start_plugins_table plugins [] ∅ H0) as H.
  unfold boot. by destruct (start_plugins plugins [] ∅) as [[ws tm] [e|]].
Qed.

Lemma put_declared item w :
  is_Some (Plugin.consumerType w) →
  (Plugin.put item w).2 = None ∧
  Plugin.queue (Plugin.put item w).1 =
    Plugin.queue w ++ (if Plugin.accepts w (type_of item) then [item] else []).
Proof.
  intros [cs Hc]. unfold Plugin.put, Plugin.accepts, Plugin.isinstance.
  rewrite Hc. destruct (existsb _ cs); simpl; [done|].
  by rewrite app_nil_r.
Qed.

Lemma fan_out_lookup item subs : ∀ ws,
  NoDup subs → declared ws →
  (fan_out item subs ws).2 = None ∧
  length (fan_out item subs ws).1.1 = length ws ∧
  ∀ j w, ws !! j = Some w →
    (fan_out item subs ws).1.1 !! j =
      Some (if bool_decide (j ∈ subs) then (Plugin.put item w).1 else w).
Proof.
  clear instantiate classes.
  induction subs as [|i rest IH]; intros ws Hnd Hdecl; simpl.
  { split_and!; try done. }
  apply NoDup_cons in Hnd as [Hi Hnd].
  destruct (ws !! i) as [w|] eqn:Hw.
  - destruct (put_declared item w (Hdecl _ _ Hw)) as [Hnone _].
    destruct (Plugin.put item w) as [w' r] eqn:Hput. simpl in Hnone. subst r.
    assert (declared (<[i:=w']> ws)) as Hdecl'.
    { intros j wj. destruct (decide (i = j)) as [->|Hne].
      - rewrite list_lookup_insert_eq by by eapply lookup_lt_Some.
        intros [= <-].
        destruct (Plugin.put_keeps_class item w) as [Hc _].
        rewrite Hput in Hc. simpl in Hc. rewrite Hc. by eapply Hdecl.
      - rewrite list_lookup_insert_ne by done. apply Hdecl. }
    destruct (IH (<[i:=w']> ws) Hnd Hdecl') as (Hr & Hlen & Hlook).
    destruct (fan_out item rest (<[i:=w']> ws)) as [[ws' evs] r]. simpl in *.
    split_and!; [done|by rewrite Hlen, length_insert|].
    intros j wj Hj. destruct (decide (i = j)) as [->|Hne].
    + rewrite (Hlook j w') by by apply list_lookup_insert_eq, (lookup_lt_Some _ _ wj).
      rewrite bool_decide_eq_false_2 by done.
      rewrite bool_decide_eq_true_2 by set_solver.
      rewrite Hw in Hj. injection Hj as <-. by rewrite Hput.
    + rewrite (Hlook j wj) by by rewrite list_lookup_insert_ne.
      f_equal. do 2 case_bool_decide; set_solver.
  - destruct (IH ws Hnd Hdecl) as (Hr & Hlen & Hlook).
    split_and!; try done.
    intros j wj Hj. rewrite (Hlook j wj Hj). f_equal.
    do 2 case_bool_decide; try done; set_solver.
Qed.

(** What the workers of a run have in common with the workers it
    started, and what each has been handed so far. *)
Record routed (ws0 : list Plugin.Worker) (tm0 : gmap Kind (gset nat))
    (st : State) : Prop := mkRouted {
  routed_table : plugin_type_map st = tm0;
  routed_class : ∀ i w, workers st !! i = Some w →
    ∃ w0, ws0 !! i = Some w0 ∧
      Plugin.consumerType w = Plugin.consumerType w0 ∧
      Plugin.consumer_type w = Plugin.consumer_type w0;
  routed_queue : ∀ i w0, ws0 !! i = Some w0 →
    ∃ w, workers st !! i = Some w ∧
      Plugin.queue w = Plugin.queue w0 ++ delivered_to w0 (sink st)
}.

Lemma accepts_same w w' k :
  Plugin.consumerType w = Plugin.consumerType w' →
  Plugin.accepts w k = Plugin.accepts w' k.
Proof. unfold Plugin.accepts. by intros ->. Qed.

Lemma routed_touch ws0 tm0 st st' :
  routed ws0 tm0 st →
  plugin_type_map st' = plugin_type_map st → sink st' = sink st →
  (∀ i w, workers st !! i = Some w →
     ∃ w', workers st' !! i = Some w' ∧
       Plugin.consumerType w' = Plugin.consumerType w ∧
       Plugin.consumer_type w' = Plugin.consumer_type w ∧
       Plugin.queue w' = Plugin.queue w) →
  length (workers st') = length (workers st) →
  routed ws0 tm0 st'.
Proof.
  intros [Ht Hc Hq] Hmap Hsink Hw Hlen. split.
  - congruence.
  - intros i w' Hw'.
    destruct (workers st !! i) as [w|] eqn:E.
    + destruct (Hw i w E) as (w'' & Hw'' & H1 & H2 & _).
      destruct (Hc i w E) as (w0 & H0 & H3 & H4).
      exists w0. split_and!; [done|congruence|congruence].
    + apply lookup_lt_Some in Hw'. apply lookup_ge_None in E. lia.
  - intros i w0 H0. destruct (Hq i w0 H0) as (w & Hwi & Hqueue).
    destruct (Hw i w Hwi) as (w' & Hw' & _ & _ & Hq').
    exists w'. split; [done|]. by rewrite Hq', Hsink.
Qed.

Lemma routed_same ws0 tm0 st st' :
  routed ws0 tm0 st →
  plugin_type_map st' = plugin_type_map st → sink st' = sink st →
  workers st' = workers st →
  routed ws0 tm0 st'.
Proof.
  intros Hr Hmap Hsink Hw. eapply routed_touch; [done|done|done| |].
  - intros i w Hi. exists w. by rewrite Hw.
  - by rewrite Hw.
Qed.

Lemma routed_alter ws0 tm0 st f i :
  routed ws0 tm0 st →
  (∀ w, Plugin.consumerType (f w) = Plugin.consumerType w ∧
        Plugin.consumer_type (f w) = Plugin.consumer_type w ∧
        Plugin.queue (f w) = Plugin.queue w) →
  routed ws0 tm0 (set_workers (alter f i (workers st)) st).
Proof.
  intros Hr Hf. eapply routed_touch; [done|done|done| |].
  - intros j w Hw. simpl. destruct (decide (i = j)) as [->|Hne].
    + exists (f w). rewrite list_lookup_alter_eq, Hw. by destruct (Hf w) as (?&?&?).
    + exists w. by rewrite list_lookup_alter_ne.
  - simpl. by rewrite length_alter.
Qed.

Lemma routed_insert ws0 tm0 st f i w :
  routed ws0 tm0 st → workers st !! i = Some w →
  (Plugin.consumerType (f w) = Plugin.consumerType w ∧
   Plugin.consumer_type (f w) = Plugin.consumer_type w ∧
   Plugin.queue (f w) = Plugin.queue w) →
  ∀ c, routed ws0 tm0 (set_caller c (set_workers (<[i := f w]> (workers st)) st)).
Proof.
  intros Hr Hw Hf c. eapply routed_touch; [done|done|done| |].
  - intros j wj Hj. simpl. destruct (decide (i = j)) as [->|Hne].
    + exists (f w). rewrite list_lookup_insert_eq by by eapply lookup_lt_Some.
      rewrite Hw in Hj. injection Hj as <-. by destruct Hf as (?&?&?).
    + exists wj. by rewrite list_lookup_insert_ne.
  - simpl. by rewrite length_insert.
Qed.

Lemma routed_get_phase ws0 tm0 st :
  declared ws0 → table_of ws0 tm0 →
  routed ws0 tm0 st → routed ws0 tm0 (get_phase st).1.
Proof.
  intros Hdecl Htab Hr. unfold get_phase.
  destruct (main_queue st) as [|item rest]; simpl.
  { by eapply routed_same. }
  destruct (log_raises (sink st) item); simpl.
  { by eapply routed_same. }
  destruct Hr as [Ht Hc Hq].
  assert (declared (workers st)) as Hd.
  { intros j w Hw. destruct (Hc j w Hw) as (w0 & H0 & -> & _). by eapply Hdecl. }
  destruct (fan_out_lookup item (subscribers (plugin_type_map st) item)
              (workers st) (NoDup_elements _) Hd) as (Hnone & Hlen & Hlook).
  destruct (fan_out _ _ _) as [[ws evs] r]. simpl in *. subst r. simpl.
  split; simpl.
  - done.
  - intros i w' Hw'.
    destruct (workers st !! i) as [w|] eqn:E.
    + rewrite (Hlook i w E) in Hw'. injection Hw' as <-.
      destruct (Hc i w E) as (w0 & H0 & H1 & H2). exists w0.
      destruct (Plugin.put_keeps_class item w) as (H3 & H4 & _).
      case_bool_decide; split_and!; congruence.
    + apply lookup_lt_Some in Hw'. apply lookup_ge_None in E. lia.
  - intros i w0 H0. destruct (Hq i w0 H0) as (w & Hw & Hqueue).
    eexists. split; [by apply Hlook|].
    destruct (Hc i w Hw) as (w0' & H0' & Hct & Hcty).
    rewrite H0 in H0'. injection H0' as <-.
    rewrite delivered_to_snoc, app_assoc, <- Hqueue.
    rewrite <- (accepts_same w w0) by done.
    destruct (put_declared item w (Hd _ _ Hw)) as [_ Hput].
    assert (i ∈ subscribers (plugin_type_map st) item ↔
            type_of item ∈ Plugin.consumer_type w0) as Hsub.
    { unfold subscribers. rewrite elem_of_elements, Ht, (Htab _ i). split.
      - intros (w1 & H1 & Hk). rewrite H0 in H1. by injection H1 as <-.
      - intros Hk. eauto. }
    case_bool_decide as Hin.
    + rewrite bool_decide_eq_true_2 by by apply Hsub. by rewrite Hput.
    + rewrite bool_decide_eq_false_2 by by rewrite <- Hsub.
      simpl. by rewrite app_nil_r.
Qed.


Lemma spawn_one_frame item d st :
  ∃ insts live, (spawn_one item d st).1 = set_daemons insts live st.
Proof.
  unfold spawn_one.
  assert (st = set_daemons (instances st) (live_daemons st) st) as Hid
    by by destruct st.
  destruct (live_daemons st !! d); [by eauto|].
  destruct (condition _ _); [destruct (constructs _ _)|]; simpl; eauto.
Qed.

Lemma exit_worker_frame join w w' :
  Plugin.exit join w = Some w' → w' = Plugin.set_exitSig w.
Proof.
  unfold Plugin.exit. destruct (join && _); [done|]. by intros [= <-].
Qed.

Lemma routed_run_step ws0 tm0 st st' evs :
  declared ws0 → table_of ws0 tm0 →
  run_step st = Some (st', evs) → routed ws0 tm0 st → routed ws0 tm0 st'.
Proof.
  intros Hdecl Htab. unfold run_step.
  destruct (pc st) as [| |item [|d todo]| | |].
  - destruct (sig_exit st); intros [= <- <-] Hr; by eapply routed_same.
  - intros [= H] Hr.
    pose proof (routed_get_phase ws0 tm0 st Hdecl Htab Hr) as Hg.
    by rewrite H in Hg.
  - intros [= <- <-] Hr. by eapply routed_same.
  - destruct (spawn_one_frame item d st) as (insts & live & Hs).
    destruct (spawn_one item d st) as [st1 ev1]. simpl in Hs. subst st1.
    intros [= <- <-] Hr. by eapply routed_same.
  - intros [= <- <-] Hr. by eapply routed_same.
  - done.
  - done.
Qed.

Lemma routed_exit_step ws0 tm0 st st' :
  exit_step st = Some st' → routed ws0 tm0 st → routed ws0 tm0 st'.
Proof.
  unfold exit_step. intros H Hr.
  destruct (caller st) as [|j|j|j [|i todo]|j [|d todo]| |j]; try done.
  - simplify_eq. by eapply routed_same.
  - simplify_eq. destruct (thread_alive (pc st)); by eapply routed_same.
  - simplify_eq. by eapply routed_same.
  - destruct (workers st !! i) as [w|] eqn:Hw.
    + destruct (Plugin.exit j w) as [w'|] eqn:He; [|done].
      apply exit_worker_frame in He as ->. simplify_eq.
      by apply (routed_insert ws0 tm0 st Plugin.set_exitSig i w).
    + simplify_eq. by eapply routed_same.
  - simplify_eq. by eapply routed_same.
  - destruct (instances st !! d) as [x|]; [destruct (daemon_exit_returns j x)|];
      simplify_eq; by eapply routed_same.
  - destruct (thread_alive (pc st)); simplify_eq. by eapply routed_same.
Qed.

Lemma routed_step ws0 tm0 a st :
  declared ws0 → table_of ws0 tm0 →
  routed ws0 tm0 st → routed ws0 tm0 (step a st).1.
Proof.
  intros Hdecl Htab Hr. destruct a; simpl.
  - destruct (run_step st) as [[st' evs]|] eqn:E; simpl; [|done].
    by eapply routed_run_step.
  - destruct (exit_step st) as [st'|] eqn:E; simpl; [|done].
    by eapply routed_exit_step.
  - destruct (caller st); simpl; try done. by eapply routed_same.
  - by eapply routed_same.
  - by eapply routed_same.
  - by apply routed_alter.
  - by apply routed_alter.
Qed.

Lemma routed_exec ws0 tm0 acts : ∀ st,
  declared ws0 → table_of ws0 tm0 →
  routed ws0 tm0 st → routed ws0 tm0 (exec acts st).
Proof.
  induction acts as [|a rest IH]; intros st Hd Ht Hr; simpl; [done|].
  apply IH; try done. by apply routed_step.
Qed.

Lemma sink_boot : sink boot = [].
Proof. unfold boot. by destruct (start_plugins _ _ _) as [[ws tm] [e|]]. Qed.

Lemma routed_boot : routed (workers boot) (plugin_type_map boot) boot.
Proof.
  split; [done|by eauto|].
  intros i w0 H0. exists w0. split; [done|].
  rewrite sink_boot. unfold delivered_to. by rewrite filter_nil, app_nil_r.
Qed.

(** C6. Take a run in which every worker has its [consumerType] set, so
    that no [put] raises, and any one of its workers. Whatever the
    schedule, what has been enqueued into this worker's private queue since
    the start of the run is exactly the messages the dispatcher has
    processed (logged and fanned out) whose exact type is among the
    worker's [consumer_type()] and which [put] finds instances of the
    worker's [consumerType], in the dispatcher's order. For a worker whose
    [put] lets through every kind it subscribed to, these are the processed
    messages whose exact type the worker subscribed to. *)
Theorem fifo_per_worker (acts : list Action) (i : nat) (w0 : Plugin.Worker) :
  declared (workers boot) →
  workers boot !! i = Some w0 →
  ∃ w, workers (exec acts boot) !! i = Some w ∧
       Plugin.queue w =
         Plugin.queue w0 ++ delivered_to w0 (sink (exec acts boot)) ∧
       (admits_subscribed w0 →
        Plugin.queue w =
          Plugin.queue w0 ++ subscribed_in w0 (sink (exec acts boot))).
Proof.
  intros Hdecl H0.
  destruct (routed_exec _ _ acts boot Hdecl table_boot routed_boot)
    as [_ _ Hq].
  destruct (Hq i w0 H0) as (w & Hw & Hqueue).
  exists w. split_and!; [done|done|].
  intros Hs. by rewrite Hqueue, delivered_to_admitted.
Qed.

(** *** The record sink comes first *)

Lemma crashed_forever acts : ∀ st e,
  pc st = Crashed e →
  pc (exec acts st) = Crashed e ∧ runlock (exec acts st) = runlock st ∧
  run_step (exec acts st) = None ∧
  sink (exec acts st) = sink st.
Proof.
  induction acts as [|a rest IH]; intros st e Hpc; simpl.
  { unfold run_step. by rewrite Hpc. }
  assert (pc (step a st).1 = Crashed e ∧
          runlock (step a st).1 = runlock st ∧
          sink (step a st).1 = sink st) as (H1 & H2 & H3).
  { destruct a; simpl; try done.
    - unfold run_step. by rewrite Hpc.
    - destruct (exit_step st) as [st'|] eqn:E; simpl; [|done].
      unfold exit_step in E. repeat case_match; simplify_eq/=; done.
    - by destruct (caller st). }
  destruct (IH _ e H1) as (? & ? & ? & ?). split_and!; congruence.
Qed.

(** C5. When the routing thread takes a message from the main queue, the
    first thing it does is to call the sink's [log] on it; every [put] of
    that step comes after it and carries that message. If [log] raises, no
    worker is handed the message, nothing catches the exception: the run
    is over, for good, with the sink and the workers as they were. *)
Theorem log_before_fan_out (st : State) (item : Item) (rest : list Item) :
  pc st = Waiting → main_queue st = item :: rest →
  ∃ st' puts,
    run_step st = Some (st', EvLog item :: puts) ∧
    (∀ ev, ev ∈ puts → ∃ i, ev = EvPut i item) ∧
    (log_raises (sink st) item = true →
       puts = [] ∧ pc st' = Crashed SinkError ∧
       workers st' = workers st ∧ sink st' = sink st ∧
       ∀ acts,
         pc (exec acts st') = Crashed SinkError ∧
         run_step (exec acts st') = None ∧
         sink (exec acts st') = sink st).
Proof.
  intros Hpc Hq. unfold run_step. rewrite Hpc.
  unfold get_phase. rewrite Hq.
  destruct (log_raises (sink st) item) eqn:Hlog.
  - eexists _, []. split; [done|]. split; [by intros ev ?%elem_of_nil|].
    intros _. split_and!; try done. intros acts.
    match goal with |- pc (exec acts ?s) = _ ∧ _ =>
      destruct (crashed_forever acts s SinkError eq_refl) as (?&?&?&?)
    end. by split_and!.
  - pose proof (fan_out_events item (subscribers (plugin_type_map st) item)
                  (workers st)) as Hev.
    destruct (fan_out _ _ _) as [[ws evs] [e|]]; simpl in Hev;
      eexists _, evs; (split; [done|]);
      (split; [|done]); intros ev Hin;
      destruct (Hev ev Hin) as (i & -> & _); eauto.
Qed.


(** *** Ticks without a message *)

Lemma spawn_loop_frame item todo : ∀ st,
  ∃ insts live, (spawn_loop item todo st).1 = set_daemons insts live st.
Proof.
  induction todo as [|d rest IH]; intros st; simpl.
  { exists (instances st), (live_daemons st). by destruct st. }
  destruct (spawn_one_frame item d st) as (i1 & l1 & H1).
  destruct (spawn_one item d st) as [st1 ev1]. simpl in H1. subst st1.
  destruct (IH (set_daemons i1 l1 st)) as (i2 & l2 & H2).
  destruct (spawn_loop item rest _) as [st2 ev2]. simpl in *. subst st2.
  by exists i2, l2.
Qed.

Lemma spawn_one_other item d st d' :
  d' ≠ d → live_daemons st !! d' = None →
  live_daemons (spawn_one item d st).1 !! d' = None.
Proof.
  intros Hne Hd. unfold spawn_one. destruct (live_daemons st !! d); [done|].
  destruct (condition _ _); [destruct (constructs _ _)|]; simpl; try done.
  by rewrite lookup_insert_ne.
Qed.

Lemma spawn_one_asks item d st :
  live_daemons st !! d = None → EvCondition d item ∈ (spawn_one item d st).2.
Proof.
  clear instantiate.
  intros Hd. unfold spawn_one. rewrite Hd.
  destruct (condition _ _); [destruct (constructs _ _)|]; simpl; set_solver.
Qed.

Lemma spawn_loop_asks item todo : ∀ st d,
  d ∈ todo → live_daemons st !! d = None →
  EvCondition d item ∈ (spawn_loop item todo st).2.
Proof.
  clear instantiate.
  induction todo as [|d0 rest IH]; intros st d Hin Hd; simpl.
  { by apply elem_of_nil in Hin. }
  pose proof (spawn_one_asks item d0 st) as Hask.
  pose proof (spawn_one_other item d0 st d) as Hother.
  destruct (spawn_one item d0 st) as [st1 ev1].
  specialize (IH st1 d).
  destruct (spawn_loop item rest st1) as [st2 ev2]. simpl in *.
  apply elem_of_app. destruct (decide (d = d0)) as [->|Hne]; [left; auto|].
  right. apply IH; [set_solver|by apply Hother].
Qed.

Lemma spawn_loop_events item todo : ∀ st ev,
  ev ∈ (spawn_loop item todo st).2 →
  (∀ m, ev ≠ EvLog m) ∧ (∀ i m, ev ≠ EvPut i m).
Proof.
  induction todo as [|d rest IH]; intros st ev; simpl.
  { by intros ?%elem_of_nil. }
  assert (∀ ev, ev ∈ (spawn_one item d st).2 →
                (∀ m, ev ≠ EvLog m) ∧ (∀ i m, ev ≠ EvPut i m)) as H1.
  { unfold spawn_one. destruct (live_daemons st !! d); simpl; [set_solver|].
    destruct (condition _ _); [destruct (constructs _ _)|]; simpl;
      intros ev' Hev'; repeat (apply elem_of_cons in Hev' as [->|Hev']);
      try done; by apply elem_of_nil in Hev'. }
  destruct (spawn_one item d st) as [st1 ev1].
  specialize (IH st1 ev).
  destruct (spawn_loop item rest st1) as [st2 ev2]. simpl in *.
  intros [Hin|Hin]%elem_of_app; auto.
Qed.

(** C3 (amended). A pass of the loop body whose wait timed out writes
    nothing to the record sink and hands nothing to any worker. A pass that
    takes the sentinel [None] from the queue logs it to the record sink like
    any other item, before anything else, and puts it to the workers
    subscribed to its type and to no other. In both cases the predicate of
    every registered daemon class without a tracked live instance is
    evaluated on the null value. *)
Theorem null_tick (st : State) :
  (main_queue st = [] →
     sink (iteration st).1 = sink st ∧
     workers (iteration st).1 = workers st ∧
     (∀ ev, ev ∈ (iteration st).2 →
        (∀ m, ev ≠ EvLog m) ∧ (∀ i m, ev ≠ EvPut i m)) ∧
     (∀ d, d ∈ daemons → live_daemons st !! d = None →
        EvCondition d PyNone ∈ (iteration st).2)) ∧
  (∀ rest, main_queue st = PyNone :: rest →
     log_raises (sink st) PyNone = false →
     sink (iteration st).1 = sink st ++ [PyNone] ∧
     (∃ evs, (iteration st).2 = EvLog PyNone :: evs) ∧
     (∀ i m, EvPut i m ∈ (iteration st).2 →
        m = PyNone ∧ i ∈ subscribers (plugin_type_map st) PyNone) ∧
     (pc (iteration st).1 = LoopHead →
        ∀ d, d ∈ daemons → live_daemons st !! d = None →
          EvCondition d PyNone ∈ (iteration st).2)).
Proof.
  split.
  - intros Hq. unfold iteration, get_phase. rewrite Hq. simpl.
    set (st1 := set_pc (Spawning PyNone daemons) st).
    destruct (spawn_loop_frame PyNone daemons st1) as (insts & live & Hf).
    pose proof (spawn_loop_events PyNone daemons st1) as Hev.
    pose proof (spawn_loop_asks PyNone daemons st1) as Hask.
    destruct (spawn_loop PyNone daemons st1) as [st2 ev2]. simpl in *.
    subst st2. simpl. split_and!; try done; intros d Hd Hl; by apply Hask.
  - intros rest Hq Hlog. unfold iteration, get_phase. rewrite Hq, Hlog.
    pose proof (fan_out_events PyNone (subscribers (plugin_type_map st) PyNone)
                  (workers st)) as Hput.
    destruct (fan_out _ _ _) as [[ws evs] [e|]]; simpl in *.
    + split_and!; [done|by eauto| |done].
      intros i m [Hin|Hin]%elem_of_cons; [done|].
      destruct (Hput _ Hin) as (j & [= -> ->] & Hj). done.
    + set (st1 := set_pc (Spawning PyNone daemons) _).
      destruct (spawn_loop_frame PyNone daemons st1) as (insts & live & Hf).
      pose proof (spawn_loop_events PyNone daemons st1) as Hev.
      pose proof (spawn_loop_asks PyNone daemons st1) as Hask.
      destruct (spawn_loop PyNone daemons st1) as [st2 ev2]. simpl in *.
      subst st2. simpl. split_and!; [done|by eauto| |].
      * intros i m [Hin|[Hin|Hin]%elem_of_app]%elem_of_cons; [done| |].
        -- destruct (Hput _ Hin) as (j & [= -> ->] & Hj). done.
        -- destruct (Hev _ Hin) as [_ Hno]. by destruct (Hno i m).
      * intros _ d Hd Hl. apply elem_of_cons. right. apply elem_of_app.
        right. by apply Hask.
Qed.


(** *** The loop body, step by step *)

Lemma spawn_one_set_pc item d p st :
  spawn_one item d (set_pc p st) =
  (set_pc p (spawn_one item d st).1, (spawn_one item d st).2).
Proof.
  unfold spawn_one. simpl. destruct (live_daemons st !! d); [done|].
  destruct (condition _ _); [destruct (constructs _ _)|]; done.
Qed.

Lemma spawn_loop_set_pc item todo p : ∀ st,
  spawn_loop item todo (set_pc p st) =
  (set_pc p (spawn_loop item todo st).1, (spawn_loop item todo st).2).
Proof.
  induction todo as [|d rest IH]; intros st; simpl; [done|].
  rewrite spawn_one_set_pc.
  destruct (spawn_one item d st) as [st1 ev1]. simpl. rewrite IH.
  by destruct (spawn_loop item rest st1) as [st2 ev2].
Qed.

Lemma spawning_steps item todo : ∀ st,
  pc st = Spawning item todo →
  exec (replicate (length todo) Run) st =
    set_pc (Spawning item []) (spawn_loop item todo st).1 ∧
  trace (replicate (length todo) Run) st = (spawn_loop item todo st).2.
Proof.
  induction todo as [|d rest IH]; intros st Hpc; simpl.
  { split; [|done]. destruct st. simpl in Hpc. by subst. }
  unfold run_step. rewrite Hpc.
  destruct (spawn_one item d st) as [st1 ev1] eqn:E1. simpl.
  destruct (IH (set_pc (Spawning item rest) st1) eq_refl) as [He Ht].
  rewrite He, Ht, spawn_loop_set_pc.
  by destruct (spawn_loop item rest st1) as [st2 ev2].
Qed.

Lemma exec_app a1 a2 st : exec (a1 ++ a2) st = exec a2 (exec a1 st).
Proof. revert st. induction a1 as [|a rest IH]; intros st; simpl; [done|]. apply IH. Qed.

Lemma trace_app a1 a2 st :
  trace (a1 ++ a2) st = trace a1 st ++ trace a2 (exec a1 st).
Proof.
  revert st. induction a1 as [|a rest IH]; intros st; simpl; [done|].
  by rewrite IH, app_assoc.
Qed.

Lemma halted_steps n st :
  thread_alive (pc st) = false →
  exec (replicate n Run) st = st ∧ trace (replicate n Run) st = [].
Proof.
  intros Hh. induction n as [|n [IH1 IH2]]; simpl; [done|].
  assert (run_step st = None) as ->.
  { unfold run_step. by destruct (pc st) as [| |? [|]| | |]. }
  simpl. by rewrite IH1, IH2.
Qed.

Lemma first_step st :
  pc st = Waiting →
  exec [Run] st = (get_phase st).1 ∧ trace [Run] st = (get_phase st).2.
Proof.
  intros Hpc. simpl. unfold run_step. rewrite Hpc. simpl.
  by rewrite app_nil_r.
Qed.

Lemma last_step st item :
  pc st = Spawning item [] →
  exec [Run] st = set_pc LoopHead (prune st) ∧ trace [Run] st = [].
Proof. intros Hpc. simpl. unfold run_step. by rewrite Hpc. Qed.

(** From the wait on the queue, [2 + length daemons] consecutive steps of
    the routing thread are one pass of the loop body. *)
Lemma iteration_steps st :
  pc st = Waiting →
  exec (replicate (2 + length daemons) Run) st = (iteration st).1 ∧
  trace (replicate (2 + length daemons) Run) st = (iteration st).2.
Proof.
  intros Hpc.
  assert (replicate (2 + length daemons) Run =
          [Run] ++ replicate (length daemons) Run ++ [Run]) as ->.
  { change (2 + length daemons) with (S (S (length daemons))).
    by rewrite replicate_S_end. }
  rewrite !exec_app, !trace_app.
  destruct (first_step st Hpc) as [-> ->].
  unfold iteration. destruct (get_phase st) as [st1 ev1] eqn:Hg.
  cbn [fst snd].
  assert ((∃ item, pc st1 = Spawning item daemons) ∨
          thread_alive (pc st1) = false) as [[item Hp]|Hh].
  { unfold get_phase in Hg. destruct (main_queue st); simplify_eq/=;
      [by left; eauto|].
    destruct (log_raises _ _); simplify_eq/=; [by right|].
    destruct (fan_out _ _ _) as [[ws evs] [e|]]; simplify_eq/=;
      [by right|left; eauto]. }
  - rewrite Hp. destruct (spawning_steps item daemons st1 Hp) as [-> ->].
    destruct (last_step (set_pc (Spawning item [])
                (spawn_loop item daemons st1).1) item eq_refl) as [-> ->].
    destruct (spawn_loop item daemons st1) as [st2 ev2]. cbn [fst snd].
    by rewrite app_nil_r.
  - destruct (halted_steps (length daemons) st1 Hh) as [-> ->].
    destruct (halted_steps 1 st1 Hh) as [H1 H2]. simpl replicate in H1, H2.
    rewrite H1, H2, !app_nil_r. by destruct (pc st1) as [| |? ?| | |].
Qed.

(** *** Shutdown *)

(** How far the caller of [exit] has got, in terms of what it has done. *)
Definition exit_progress (st : State) : Prop :=
  match caller st with
  | NotCalled | SetSignal _ => True
  | Sentinel _ => sig_exit st = true
  | ExitThreads _ todo =>
      sig_exit st = true ∧
      ∀ i w, workers st !! i = Some w → i ∉ todo → Plugin.exitSig w = true
  | ExitDaemons _ _ | JoinSelf =>
      sig_exit st = true ∧
      ∀ i w, workers st !! i = Some w → Plugin.exitSig w = true
  | ExitReturned join =>
      sig_exit st = true ∧
      (∀ i w, workers st !! i = Some w → Plugin.exitSig w = true) ∧
      (join = true → thread_alive (pc st) = false)
  end.

(** Other threads never clear a worker's exit signal. *)
Definition keeps_signals (ws ws' : list Plugin.Worker) : Prop :=
  ∀ i w', ws' !! i = Some w' →
    ∃ w, ws !! i = Some w ∧ (Plugin.exitSig w = true → Plugin.exitSig w' = true).

Lemma keeps_signals_refl ws : keeps_signals ws ws.
Proof. intros i w Hw. eauto. Qed.

Lemma keeps_signals_trans ws1 ws2 ws3 :
  keeps_signals ws1 ws2 → keeps_signals ws2 ws3 → keeps_signals ws1 ws3.
Proof.
  intros H12 H23 i w3 H3. destruct (H23 i w3 H3) as (w2 & H2 & Hs2).
  destruct (H12 i w2 H2) as (w1 & H1 & Hs1). eauto.
Qed.

Lemma keeps_signals_insert ws i w w' :
  ws !! i = Some w → (Plugin.exitSig w = true → Plugin.exitSig w' = true) →
  keeps_signals ws (<[i := w']> ws).
Proof.
  intros Hw Hs j wj. destruct (decide (i = j)) as [->|Hne].
  - rewrite list_lookup_insert_eq by by eapply lookup_lt_Some.
    intros [= <-]. eauto.
  - rewrite list_lookup_insert_ne by done. eauto.
Qed.

Lemma keeps_signals_alter ws i f :
  (∀ w, Plugin.exitSig (f w) = Plugin.exitSig w) →
  keeps_signals ws (alter f i ws).
Proof.
  intros Hf j wj. destruct (decide (i = j)) as [->|Hne].
  - rewrite list_lookup_alter_eq. destruct (ws !! j) as [w|]; [|done].
    intros [= <-]. exists w. by rewrite Hf.
  - rewrite list_lookup_alter_ne by done. eauto.
Qed.

Lemma fan_out_keeps_signals item subs : ∀ ws,
  keeps_signals ws (fan_out item subs ws).1.1.
Proof.
  induction subs as [|i rest IH]; intros ws; simpl;
    [apply keeps_signals_refl|].
  destruct (ws !! i) as [w|] eqn:Hw; [|apply IH].
  destruct (Plugin.put_keeps_class item w) as (_ & _ & Hs & _).
  destruct (Plugin.put item w) as [w' [e|]]; simpl in *.
  - apply (keeps_signals_insert ws i w w' Hw). congruence.
  - specialize (IH (<[i:=w']> ws)).
    destruct (fan_out item rest (<[i:=w']> ws)) as [[ws' evs] r]. simpl in *.
    eapply keeps_signals_trans; [|exact IH].
    apply (keeps_signals_insert ws i w w' Hw). congruence.
Qed.

Lemma exit_progress_env st st' :
  caller st' = caller st → sig_exit st' = sig_exit st →
  keeps_signals (workers st) (workers st') →
  (thread_alive (pc st) = false → thread_alive (pc st') = false) →
  exit_progress st → exit_progress st'.
Proof.
  intros Hc Hs Hk Hp. unfold exit_progress. rewrite Hc, Hs.
  assert (∀ i w', workers st' !! i = Some w' →
            (∀ w, workers st !! i = Some w → Plugin.exitSig w = true) →
            Plugin.exitSig w' = true) as Hup.
  { intros i w' Hw' H. destruct (Hk i w' Hw') as (w & Hw & Hsig). eauto. }
  destruct (caller st) as [|j|j|j todo|j todo| |j]; try done.
  - intros [? H]. split; [done|]. intros i w' Hw' Hi. eapply Hup; eauto.
  - intros [? H]. split; [done|]. intros i w' Hw'. eapply Hup; eauto.
  - intros [? H]. split; [done|]. intros i w' Hw'. eapply Hup; eauto.
  - intros (? & H & Hj). split_and!; [done| |by auto].
    intros i w' Hw'. eapply Hup; eauto.
Qed.

Lemma run_step_env st st' evs :
  run_step st = Some (st', evs) →
  caller st' = caller st ∧ sig_exit st' = sig_exit st ∧
  keeps_signals (workers st) (workers st') ∧
  thread_alive (pc st) = true.
Proof.
  unfold run_step. destruct (pc st) as [| |item [|d todo]| | |]; try done.
  - destruct (sig_exit st) eqn:Hs; intros [= <- <-];
      split_and!; try done; apply keeps_signals_refl.
  - intros [= H].
    unfold get_phase in H. destruct (main_queue st) as [|item rest].
    { simplify_eq. split_and!; try done. apply keeps_signals_refl. }
    destruct (log_raises _ _).
    { simplify_eq. split_and!; try done. apply keeps_signals_refl. }
    pose proof (fan_out_keeps_signals item
                  (subscribers (plugin_type_map st) item) (workers st)) as Hk.
    destruct (fan_out _ _ _) as [[ws evs'] [e|]]; simplify_eq/=; done.
  - intros [= <- <-]. split_and!; try done. apply keeps_signals_refl.
  - destruct (spawn_one_frame item d st) as (insts & live & Hs).
    destruct (spawn_one item d st) as [st1 ev1]. simpl in Hs. subst st1.
    intros [= <- <-]. split_and!; try done. apply keeps_signals_refl.
  - intros [= <- <-]. split_and!; try done. apply keeps_signals_refl.
Qed.

Lemma exit_progress_exit_step st st' :
  exit_step st = Some st' → exit_progress st → exit_progress st'.
Proof.
  clear instantiate classes.
  unfold exit_step, exit_progress.
  destruct (caller st) as [|j|j|j [|i todo]|j [|d todo]| |j]; try done.
  - by intros [= <-].
  - intros [= <-] Hs. simpl.
    assert (∀ i w, workers st !! i = Some w →
              i ∉ seq 0 (length (workers st)) → Plugin.exitSig w = true) as H.
    { intros i w Hw Hi. exfalso. apply Hi, elem_of_seq.
      apply lookup_lt_Some in Hw. lia. }
    by destruct (thread_alive (pc st)).
  - intros [= <-] [Hs H]. simpl. split; [done|]. intros i w Hw.
    apply (H i w Hw). set_solver.
  - destruct (workers st !! i) as [w|] eqn:Hw.
    + destruct (Plugin.exit j w) as [w'|] eqn:He; [|done].
      apply exit_worker_frame in He as ->.
      intros [= <-] [Hs H]. simpl. split; [done|].
      intros k wk. destruct (decide (i = k)) as [->|Hne].
      * rewrite list_lookup_insert_eq by by eapply lookup_lt_Some.
        by intros [= <-].
      * rewrite list_lookup_insert_ne by done. intros Hk Hin.
        apply (H k wk Hk). set_solver.
    + intros [= <-] [Hs H]. simpl. split; [done|].
      intros k wk Hk Hin. apply (H k wk Hk).
      intros [->|?]%elem_of_cons; [congruence|done].
  - intros [= <-] [Hs H]. simpl. by destruct j.
  - destruct (instances st !! d) as [x|]; [destruct (daemon_exit_returns j x)|];
      try done; by intros [= <-].
  - destruct (thread_alive (pc st)) eqn:Ha; [done|].
    by intros [= <-] [Hs H].
Qed.

Lemma exit_progress_step a st : exit_progress st → exit_progress (step a st).1.
Proof.
  destruct a; unfold step; cbn [fst].
  - destruct (run_step st) as [[st' evs]|] eqn:E; cbn [default from_option id fst]; [|done].
    destruct (run_step_env _ _ _ E) as (Hc & Hs & Hk & Ha).
    apply exit_progress_env; try done. congruence.
  - destruct (exit_step st) as [st'|] eqn:E; cbn [default from_option id]; [|done].
    by apply exit_progress_exit_step.
  - unfold exit_progress. destruct (caller st) eqn:Hc; simpl; rewrite ?Hc; done.
  - apply exit_progress_env; try done; apply keeps_signals_refl.
  - apply exit_progress_env; try done; apply keeps_signals_refl.
  - apply exit_progress_env; try done; by apply keeps_signals_alter.
  - apply exit_progress_env; try done; by apply keeps_signals_alter.
Qed.

Lemma exit_progress_exec acts : ∀ st,
  exit_progress st → exit_progress (exec acts st).
Proof.
  induction acts as [|a rest IH]; intros st H; simpl; [done|].
  by apply IH, exit_progress_step.
Qed.

Lemma exit_progress_boot : exit_progress boot.
Proof.
  unfold exit_progress, boot.
  by destruct (start_plugins _ _ _) as [[ws tm] [e|]].
Qed.


(** *** The run lock *)

Lemma get_phase_runlock st : runlock (get_phase st).1 = runlock st.
Proof.
  unfold get_phase. destruct (main_queue st) as [|item rest]; [done|].
  destruct (log_raises _ _); [done|].
  by destruct (fan_out _ _ _) as [[ws evs] [e|]].
Qed.

Lemma lock_step a st :
  (pc st ≠ Finished → runlock st = true) →
  (pc (step a st).1 ≠ Finished → runlock (step a st).1 = true).
Proof.
  intros H. destruct a; simpl; try done.
  - destruct (run_step st) as [[st' evs]|] eqn:E; simpl; [|done].
    unfold run_step in E. destruct (pc st) as [| |item [|d todo]| | |] eqn:Hp;
      try done.
    + destruct (sig_exit st); simplify_eq/=; by auto.
    + simplify_eq/=. intros _.
      replace st' with (get_phase st).1 by by rewrite E.
      rewrite get_phase_runlock. by apply H.
    + simplify_eq/=. by auto.
    + destruct (spawn_one_frame item d st) as (insts & live & Hs).
      destruct (spawn_one item d st) as [st1 ev1]. simpl in Hs. subst st1.
      simplify_eq/=. by auto.
    + by simplify_eq/=.
  - destruct (exit_step st) as [st'|] eqn:E; simpl; [|done].
    unfold exit_step in E. repeat case_match; simplify_eq/=; by auto.
  - by destruct (caller st).
Qed.

Lemma lock_exec acts : ∀ st,
  (pc st ≠ Finished → runlock st = true) →
  (pc (exec acts st) ≠ Finished → runlock (exec acts st) = true).
Proof.
  induction acts as [|a rest IH]; intros st H; simpl; [done|].
  by apply IH, lock_step.
Qed.

(** *** What no step changes, and who changes what *)

Lemma fan_out_length item subs : ∀ ws,
  length (fan_out item subs ws).1.1 = length ws.
Proof.
  induction subs as [|i rest IH]; intros ws; simpl; [done|].
  destruct (ws !! i) as [w|]; [|apply IH].
  destruct (Plugin.put item w) as [w' [e|]]; simpl.
  - by rewrite length_insert.
  - specialize (IH (<[i:=w']> ws)).
    destruct (fan_out item rest (<[i:=w']> ws)) as [[ws' evs] r]. simpl in *.
    by rewrite IH, length_insert.
Qed.

(** A step of the routing thread touches neither the exit signal, nor the
    routing table, nor [_active_daemons], nor the caller of [exit]. *)
Lemma run_step_shape st st' evs :
  run_step st = Some (st', evs) →
  sig_exit st' = sig_exit st ∧ plugin_type_map st' = plugin_type_map st ∧
  _active_daemons st' = _active_daemons st ∧ caller st' = caller st ∧
  length (workers st') = length (workers st).
Proof.
  unfold run_step. destruct (pc st) as [| |item [|d todo]| | |]; try done.
  - destruct (sig_exit st) eqn:Hs; intros [= <- <-]; simpl; by split_and!.
  - intros [= H]. unfold get_phase in H.
    destruct (main_queue st) as [|item rest]; [simplify_eq; by split_and!|].
    destruct (log_raises _ _); [simplify_eq; by split_and!|].
    pose proof (fan_out_length item (subscribers (plugin_type_map st) item)
                  (workers st)) as Hlen.
    destruct (fan_out _ _ _) as [[ws evs'] [e|]]; simplify_eq/=; by split_and!.
  - intros [= <- <-]. by split_and!.
  - destruct (spawn_one_frame item d st) as (insts & live & Hs).
    destruct (spawn_one item d st) as [st1 ev1]. simpl in Hs. subst st1.
    intros [= <- <-]. by split_and!.
  - intros [= <- <-]. by split_and!.
Qed.

(** A step of the caller of [exit] touches neither the routing thread's
    position, nor the lock, the sink, the routing table, the daemons. *)
Lemma exit_step_shape st st' :
  exit_step st = Some st' →
  pc st' = pc st ∧ runlock st' = runlock st ∧ sink st' = sink st ∧
  plugin_type_map st' = plugin_type_map st ∧
  _active_daemons st' = _active_daemons st ∧
  length (workers st') = length (workers st) ∧
  (sig_exit st = true → sig_exit st' = true).
Proof.
  clear instantiate classes.
  unfold exit_step.
  destruct (caller st) as [|j|j|j [|i todo]|j [|d todo]| |j]; try done.
  - intros [= <-]. by split_and!.
  - intros [= <-]. destruct (thread_alive (pc st)); by split_and!.
  - intros [= <-]. by split_and!.
  - destruct (workers st !! i) as [w|]; [|intros [= <-]; by split_and!].
    destruct (Plugin.exit j w) as [w'|]; [|done]. intros [= <-]. simpl.
    rewrite length_insert. by split_and!.
  - intros [= <-]. by split_and!.
  - destruct (instances st !! d) as [x|]; [destruct (daemon_exit_returns j x)|];
      try done; intros [= <-]; by split_and!.
  - destruct (thread_alive (pc st)); [done|]. intros [= <-]. by split_and!.
Qed.

Definition is_run (a : Action) : bool :=
  match a with Run => true | _ => false end.

(** How many of the actions of a schedule are moves of a given thread. *)
Fixpoint turns (who : Action → bool) (acts : list Action) : nat :=
  match acts with
  | [] => 0
  | a :: rest => (if who a then 1 else 0) + turns who rest
  end.

Lemma other_step_pc a st :
  is_run a = false →
  pc (step a st).1 = pc st ∧ runlock (step a st).1 = runlock st ∧
  sink (step a st).1 = sink st ∧
  (sig_exit st = true → sig_exit (step a st).1 = true).
Proof.
  destruct a; intros H; try discriminate H; clear H; unfold step; cbn [fst].
  - destruct (exit_step st) as [st'|] eqn:E; simpl; [|by split_and!].
    destruct (exit_step_shape _ _ E) as (?&?&?&_&_&_&?). by split_and!.
  - destruct (caller st); by split_and!.
  - by split_and!.
  - by split_and!.
  - by split_and!.
  - by split_and!.
Qed.

Definition enqueued (a : Action) (st : State) : list Item :=
  match a with
  | Produce item => [item]
  | Exit =>
      match caller st with
      | Sentinel _ => if thread_alive (pc st) then [PyNone] else []
      | _ => []
      end
  | _ => []
  end.

(** Everything put on the main queue in the course of a schedule. *)
Fixpoint put_log (acts : list Action) (st : State) : list Item :=
  match acts with
  | [] => []
  | a :: rest => enqueued a st ++ put_log rest (step a st).1
  end.

(** The items put so far are those logged, then at most one lost to a
    sink failure, then those still queued. *)
Definition in_order (st : State) (hist : list Item) : Prop :=
  ∃ lost, sink st ++ lost ++ main_queue st = hist ∧
          (lost = [] ∨ ∃ m, lost = [m] ∧ pc st = Crashed SinkError).

Lemma in_order_none st hist :
  sink st ++ main_queue st = hist → in_order st hist.
Proof. intros H. exists []. split; [done|by left]. Qed.

Lemma in_order_run_step st st' evs hist :
  run_step st = Some (st', evs) → in_order st hist → in_order st' hist.
Proof.
  unfold run_step. intros Hstep (lost & Hh & Hl).
  destruct (pc st) as [| |item [|d todo]| | |] eqn:Hpc; try done;
    (destruct Hl as [->|(m & _ & ?)]; [|done]); simpl in Hh.
  - destruct (sig_exit st); simplify_eq; by apply in_order_none.
  - injection Hstep as Hg. unfold get_phase in Hg.
    destruct (main_queue st) as [|item rest] eqn:Hq.
    { simplify_eq. apply in_order_none. simpl. by rewrite Hq. }
    destruct (log_raises _ _).
    { simplify_eq. exists [item]. simpl. split; [done|right; eauto]. }
    destruct (fan_out _ _ _) as [[ws evs'] [e|]]; simplify_eq/=;
      apply in_order_none; simpl; by rewrite <- app_assoc.
  - simplify_eq. by apply in_order_none.
  - destruct (spawn_one_frame item d st) as (insts & live & Hs).
    destruct (spawn_one item d st) as [st1 ev1]. simpl in Hs. subst st1.
    simplify_eq. by apply in_order_none.
  - simplify_eq. by apply in_order_none.
Qed.

Lemma in_order_step a st hist :
  in_order st hist → in_order (step a st).1 (hist ++ enqueued a st).
Proof.
  clear instantiate.
  intros Hin. destruct a; unfold step, enqueued; cbn [fst];
    rewrite ?app_nil_r; try done.
  - destruct (run_step st) as [[st' evs]|] eqn:E; simpl; [|done].
    by eapply in_order_run_step.
  - destruct Hin as (lost & <- & Hl).
    destruct (exit_step st) as [st'|] eqn:E; simpl.
    + destruct (exit_step_shape _ _ E) as (Hpc & _ & Hs & _).
      exists lost. rewrite Hpc, Hs. split; [|done].
      unfold exit_step in E.
      destruct (caller st) as [|j|j|j [|i todo]|j [|d todo]| |j];
        try done; rewrite ?app_nil_r.
      * by simplify_eq.
      * simplify_eq. destruct (thread_alive (pc st)); simpl;
          rewrite ?app_nil_r, <- ?app_assoc; done.
      * by simplify_eq.
      * repeat case_match; by simplify_eq.
      * by simplify_eq.
      * repeat case_match; by simplify_eq.
      * repeat case_match; by simplify_eq.
    + unfold exit_step in E.
      destruct (caller st) as [|j|j|j [|i todo]|j [|d todo]| |j];
        try done; rewrite ?app_nil_r; by exists lost.
  - destruct (caller st); done.
  - destruct Hin as (lost & <- & Hl). exists lost. simpl.
    split; [|done]. by rewrite <- !app_assoc.
Qed.

Lemma in_order_exec acts : ∀ st hist,
  in_order st hist → in_order (exec acts st) (hist ++ put_log acts st).
Proof.
  induction acts as [|a rest IH]; intros st hist Hin; simpl.
  { by rewrite app_nil_r. }
  rewrite app_assoc. apply IH. by apply in_order_step.
Qed.

Lemma main_queue_boot : main_queue boot = [].
Proof. unfold boot. by destruct (start_plugins _ _ _) as [[ws tm] [e|]]. Qed.

(** X7. Under every schedule, the items the record sink has taken,
    followed by the items still on the main queue, are the items that were
    put on the queue (by [put], by [signal], or as the sentinel of
    [exit]), in the order they were put; the only item that can
    be missing between the two is the one whose [log] raised and ended the
    run. *)
Theorem main_queue_is_fifo (acts : list Action) :
  ∃ lost,
    sink (exec acts boot) ++ lost ++ main_queue (exec acts boot)
      = put_log acts boot ∧
    (lost = [] ∨ ∃ m, lost = [m] ∧ pc (exec acts boot) = Crashed SinkError).
Proof.
  apply (in_order_exec acts boot []).
  exists []. by rewrite sink_boot, main_queue_boot; auto.
Qed.

(** *** The run ends once the exit signal is set *)

(** An upper bound on the steps the routing thread still makes once
    [sig_exit] is set: the rest of the current pass, the loop test, the
    release of the lock. *)
Definition steps_left (st : State) : nat :=
  match pc st with
  | LoopHead => 2
  | Waiting => length daemons + 4
  | Spawning _ todo => length todo + 3
  | Release => 1
  | Finished | Crashed _ => 0
  end.

(** How many more items the sink can be handed once [sig_exit] is set. *)
Definition logs_left (st : State) : nat :=
  match pc st with
  | Waiting => 1
  | _ => 0
  end.

Lemma get_phase_pc st :
  (∃ item, pc (get_phase st).1 = Spawning item daemons) ∨
  (∃ e, pc (get_phase st).1 = Crashed e).
Proof.
  unfold get_phase. destruct (main_queue st) as [|item rest]; [left; by eauto|].
  destruct (log_raises _ _); [right; by eauto|].
  destruct (fan_out _ _ _) as [[ws evs] [e|]]; [right|left]; by eauto.
Qed.

Lemma get_phase_sink st :
  length (sink (get_phase st).1) ≤ S (length (sink st)).
Proof.
  unfold get_phase. destruct (main_queue st) as [|item rest]; simpl; [lia|].
  destruct (log_raises _ _); simpl; [lia|].
  destruct (fan_out _ _ _) as [[ws evs] [e|]]; simpl;
    rewrite length_app; simpl; lia.
Qed.

Lemma winding_down_run st :
  sig_exit st = true →
  sig_exit (step Run st).1 = true ∧
  steps_left (step Run st).1 ≤ pred (steps_left st) ∧
  length (sink (step Run st).1) + logs_left (step Run st).1
    ≤ length (sink st) + logs_left st.
Proof.
  intros Hs. unfold step, steps_left, logs_left. cbn [fst].
  destruct (run_step st) as [[st' evs]|] eqn:E;
    cbn [default from_option id fst];
    [|unfold run_step in E;
      destruct (pc st) as [| |item [|d todo]| | |]; rewrite ?Hs in E;
      try destruct (spawn_one _ _ _); simplify_eq/=;
      split_and!; done || lia].
  destruct (run_step_shape _ _ _ E) as (Hsig & _).
  split; [congruence|]. unfold run_step in E. rewrite Hs in E.
  destruct (pc st) as [| |item [|d todo]| | |] eqn:Hpc; try done.
  - simplify_eq/=. lia.
  - injection E as E. pose proof (get_phase_sink st) as Hlen.
    destruct (get_phase_pc st) as [[item Hp]|[e Hp]];
      rewrite E in Hp, Hlen; simpl in Hp, Hlen; rewrite Hp; lia.
  - simplify_eq/=. lia.
  - destruct (spawn_one_frame item d st) as (insts & live & Hf).
    destruct (spawn_one item d st) as [st1 ev1]. simpl in Hf. subst st1.
    simplify_eq/=. lia.
  - simplify_eq/=. lia.
Qed.

Lemma winding_down acts : ∀ st,
  sig_exit st = true →
  (steps_left st ≤ turns is_run acts →
     thread_alive (pc (exec acts st)) = false) ∧
  length (sink (exec acts st)) ≤ length (sink st) + logs_left st.
Proof.
  induction acts as [|a rest IH]; intros st Hs; simpl.
  { split; [|lia]. unfold steps_left.
    destruct (pc st) as [| |item todo| | |]; simpl; done || lia. }
  destruct (is_run a) eqn:Ha.
  - destruct a; try done.
    destruct (winding_down_run st Hs) as (Hs' & Hsteps & Hlogs).
    destruct (IH _ Hs') as [IH1 IH2]. split; [|lia].
    intros Hle. apply IH1. lia.
  - destruct (other_step_pc a st Ha) as (Hpc & _ & Hsink & Hsig).
    destruct (IH _ (Hsig Hs)) as [IH1 IH2].
    unfold steps_left, logs_left in *. rewrite Hpc, Hsink in *.
    split; [|done]. intros Hle. apply IH1. lia.
Qed.

(** X8. Once the exit signal is set, the routing thread ends within
    [length daemons + 4] of its own steps, however its steps are interleaved
    with those of the other threads: it finishes the pass it is in, sees the
    signal at the loop test and leaves. *)
Theorem run_ends_after_exit_signal (acts : list Action) (st : State) :
  sig_exit st = true →
  steps_left st ≤ turns is_run acts →
  thread_alive (pc (exec acts st)) = false.
Proof. intros Hs. by apply (winding_down acts st Hs). Qed.

(** X9. Once the exit signal is set, at most one more item reaches the
    record sink, and none if the routing thread is not waiting on the queue
    at that moment. *)
Theorem one_more_log_after_exit_signal (acts : list Action) (st : State) :
  sig_exit st = true →
  length (sink (exec acts st)) ≤ length (sink st) + logs_left st.
Proof. intros Hs. by apply (winding_down acts st Hs). Qed.

(** *** The lock and the end of the run *)

Lemma released_step a st :
  (pc st = Finished → runlock st = false) →
  (pc (step a st).1 = Finished → runlock (step a st).1 = false).
Proof.
  intros H. destruct (is_run a) eqn:Ha.
  - destruct a; try done. unfold step. cbn [fst].
    destruct (run_step st) as [[st' evs]|] eqn:E; [|done].
    cbn [default from_option id fst]. unfold run_step in E.
    destruct (pc st) as [| |item [|d todo]| | |] eqn:Hpc; try done.
    + by destruct (sig_exit st); simplify_eq/=.
    + injection E as E. intros Hf.
      destruct (get_phase_pc st) as [[item Hp]|[e Hp]];
        rewrite E in Hp; simpl in Hp; congruence.
    + by simplify_eq/=.
    + destruct (spawn_one_frame item d st) as (insts & live & Hf).
      destruct (spawn_one item d st) as [st1 ev1]. simpl in Hf. subst st1.
      by simplify_eq/=.
    + by simplify_eq/=.
  - destruct (other_step_pc a st Ha) as (-> & -> & _). done.
Qed.

Lemma released_exec acts : ∀ st,
  (pc st = Finished → runlock st = false) →
  (pc (exec acts st) = Finished → runlock (exec acts st) = false).
Proof.
  induction acts as [|a rest IH]; intros st H; simpl; [done|].
  by apply IH, released_step.
Qed.

Lemma lock_boot : pc boot ≠ Finished ∧ runlock boot = true.
Proof. unfold boot. by destruct (start_plugins _ _ _) as [[ws tm] [e|]]. Qed.

(** X10. Under every schedule the run lock is free exactly when [run] has
    returned normally: it is held throughout the run, released at its end,
    and still held when the run was ended by an exception. *)
Theorem lock_free_iff_run_returned (acts : list Action) :
  runlock (exec acts boot) = false ↔ pc (exec acts boot) = Finished.
Proof.
  destruct lock_boot as [Hpc Hl]. split.
  - intros Hfree. destruct (pc (exec acts boot)) eqn:Hp; try done; exfalso;
      (assert (runlock (exec acts boot) = true) as Hheld
         by (apply lock_exec; [done|by rewrite Hp]));
      congruence.
  - apply released_exec. done.
Qed.

(** *** What the routing thread hands out *)

Lemma sink_grows_step a st : sink st `prefix_of` sink (step a st).1.
Proof.
  destruct (is_run a) eqn:Ha.
  - destruct a; try done. unfold step. cbn [fst].
    destruct (run_step st) as [[st' evs]|] eqn:E;
      cbn [default from_option id fst]; [|done].
    unfold run_step in E.
    destruct (pc st) as [| |item [|d todo]| | |] eqn:Hpc; try done.
    + by destruct (sig_exit st); simplify_eq/=.
    + injection E as E. unfold get_phase in E.
      destruct (main_queue st) as [|item rest]; [by simplify_eq|].
      destruct (log_raises _ _); [by simplify_eq|].
      destruct (fan_out _ _ _) as [[ws evs'] [e|]]; simplify_eq/=;
        by apply prefix_app_r.
    + by simplify_eq/=.
    + destruct (spawn_one_frame item d st) as (insts & live & Hf).
      destruct (spawn_one item d st) as [st1 ev1]. simpl in Hf. subst st1.
      by simplify_eq/=.
    + by simplify_eq/=.
  - by destruct (other_step_pc a st Ha) as (_ & _ & -> & _).
Qed.

Lemma sink_grows_exec acts : ∀ st, sink st `prefix_of` sink (exec acts st).
Proof.
  induction acts as [|a rest IH]; intros st; simpl; [done|].
  etrans; [apply sink_grows_step|apply IH].
Qed.

Lemma table_step a st : plugin_type_map (step a st).1 = plugin_type_map st.
Proof.
  destruct a; unfold step; cbn [fst]; try done.
  - destruct (run_step st) as [[st' evs]|] eqn:E; simpl; [|done].
    by destruct (run_step_shape _ _ _ E) as (_ & ? & _).
  - destruct (exit_step st) as [st'|] eqn:E; simpl; [|done].
    by destruct (exit_step_shape _ _ E) as (_ & _ & _ & ? & _).
  - by destruct (caller st).
Qed.

Lemma step_puts a st i item :
  EvPut i item ∈ (step a st).2 →
  i ∈ default ∅ (plugin_type_map st !! type_of item) ∧
  item ∈ sink (step a st).1.
Proof.
  clear instantiate.
  destruct a; unfold step; cbn [fst snd];
    try (by intros ?%elem_of_nil).
  - destruct (run_step st) as [[st' evs]|] eqn:E;
      cbn [default from_option id fst snd]; [|by intros ?%elem_of_nil].
    unfold run_step in E.
    destruct (pc st) as [| |it [|d todo]| | |] eqn:Hpc; try done.
    + destruct (sig_exit st); simplify_eq/=; by intros ?%elem_of_nil.
    + injection E as E. unfold get_phase in E.
      destruct (main_queue st) as [|it rest];
        [simplify_eq; by intros ?%elem_of_nil|].
      destruct (log_raises _ _).
      { simplify_eq. intros [?|?%elem_of_nil]%elem_of_cons; done. }
      pose proof (fan_out_events it (subscribers (plugin_type_map st) it)
                    (workers st) (EvPut i item)) as Hev.
      destruct (fan_out _ _ _) as [[ws evs'] [e|]]; simplify_eq/=;
        (intros [?|Hin]%elem_of_cons; [done|]);
        destruct (Hev Hin) as (j & [= -> ->] & Hj);
        unfold subscribers in Hj; apply elem_of_elements in Hj;
        (split; [done|set_solver]).
    + simplify_eq/=. by intros ?%elem_of_nil.
    + pose proof (spawn_one_consults it d st) as Hc.
      unfold spawn_one in E.
      destruct (live_daemons st !! d); simplify_eq/=;
        [by intros ?%elem_of_nil|].
      destruct (condition _ _); [destruct (constructs _ _)|]; simplify_eq/=;
        set_solver.
    + simplify_eq/=. by intros ?%elem_of_nil.
  - destruct (caller st); by intros ?%elem_of_nil.
Qed.

Lemma trace_puts acts : ∀ st i item,
  EvPut i item ∈ trace acts st →
  i ∈ default ∅ (plugin_type_map st !! type_of item) ∧
  item ∈ sink (exec acts st).
Proof.
  induction acts as [|a rest IH]; intros st i item; simpl.
  { by intros ?%elem_of_nil. }
  intros [Hin|Hin]%elem_of_app.
  - destruct (step_puts a st i item Hin) as [Hi Hs]. split; [done|].
    by eapply elem_of_prefix; [|apply sink_grows_exec].
  - destruct (IH _ _ _ Hin) as [Hi Hs]. by rewrite table_step in Hi.
Qed.

(** X12. Whatever the schedule, the routing thread calls [put] on a
    worker only with an item whose exact type is among that worker's
    [consumer_type()], and only with an item that the record sink has
    taken before. *)
Theorem puts_are_subscribed_and_logged (acts : list Action) (i : nat)
    (item : Item) :
  EvPut i item ∈ trace acts boot →
  (∃ w, workers boot !! i = Some w ∧
        type_of item ∈ Plugin.consumer_type w) ∧
  item ∈ sink (exec acts boot).
Proof.
  intros Hin. destruct (trace_puts acts boot i item Hin) as [Hi Hs].
  split; [|done]. by apply table_boot.
Qed.

(** *** What starts a daemon *)

Lemma instance_kept st st' n x :
  daemon_move st st' → instances st !! n = Some x →
  ∃ x', instances st' !! n = Some x' ∧ klass x' = klass x ∧ data x' = data x.
Proof.
  intros Hm Hx. destruct Hm as [Hi _|d item _ Hi _|Hi _|k Hi _]; rewrite Hi.
  - eauto.
  - exists x. by rewrite lookup_app_l by by eapply lookup_lt_Some.
  - eauto.
  - destruct (decide (k = n)) as [->|Hne].
    + rewrite list_lookup_alter_eq, Hx. simpl. eauto.
    + rewrite list_lookup_alter_ne by done. eauto.
Qed.

Lemma instance_kept_exec acts : ∀ st n x,
  instances st !! n = Some x →
  ∃ x', instances (exec acts st) !! n = Some x' ∧
        klass x' = klass x ∧ data x' = data x.
Proof.
  induction acts as [|a rest IH]; intros st n x Hx; simpl; [by eauto|].
  destruct (instance_kept st (step a st).1 n x (step_daemon_move a st) Hx)
    as (x1 & H1 & Hk1 & Hd1).
  destruct (IH _ n x1 H1) as (x2 & H2 & Hk2 & Hd2).
  exists x2. split_and!; congruence.
Qed.

Lemma step_starts a st d n item :
  EvStart d n item ∈ (step a st).2 →
  condition (classes d) item = true ∧ constructs (classes d) item = true ∧
  live_daemons st !! d = None ∧
  instances st !! n = None ∧
  instances (step a st).1 !! n = Some (mkInstance d item true).
Proof.
  destruct a; unfold step; cbn [fst snd];
    try (by intros ?%elem_of_nil).
  - destruct (run_step st) as [[st' evs]|] eqn:E;
      cbn [default from_option id fst snd]; [|by intros ?%elem_of_nil].
    unfold run_step in E.
    destruct (pc st) as [| |it [|d0 todo]| | |] eqn:Hpc; try done.
    + destruct (sig_exit st); simplify_eq/=; by intros ?%elem_of_nil.
    + injection E as E. intros Hin.
      replace evs with (get_phase st).2 in Hin by by rewrite E.
      apply get_phase_events in Hin as (? & ? & _ & [?|[? ?]]); done.
    + simplify_eq/=. by intros ?%elem_of_nil.
    + unfold spawn_one in E.
      destruct (live_daemons st !! d0) eqn:Hl; simplify_eq/=;
        [by intros ?%elem_of_nil|].
      destruct (condition _ _) eqn:Hc;
        [destruct (constructs _ _) eqn:Hk|]; simplify_eq/=.
      * intros [?|[[= -> -> ->]|?%elem_of_nil]%elem_of_cons]%elem_of_cons;
          try done.
        split_and!; try done; [by apply lookup_ge_None|].
        by apply list_lookup_middle.
      * intros [?|[?|?%elem_of_nil]%elem_of_cons]%elem_of_cons; done.
      * intros [?|?%elem_of_nil]%elem_of_cons; done.
    + simplify_eq/=. by intros ?%elem_of_nil.
  - destruct (caller st); by intros ?%elem_of_nil.
Qed.

Lemma trace_starts acts : ∀ st d n item,
  EvStart d n item ∈ trace acts st →
  condition (classes d) item = true ∧ constructs (classes d) item = true ∧
  instances st !! n = None ∧
  ∃ x, instances (exec acts st) !! n = Some x ∧ klass x = d ∧ data x = item.
Proof.
  induction acts as [|a rest IH]; intros st d n item; simpl.
  { by intros ?%elem_of_nil. }
  intros [Hin|Hin]%elem_of_app.
  - destruct (step_starts a st d n item Hin) as (Hc & Hk & _ & Hn & Hx).
    destruct (instance_kept_exec rest _ n _ Hx) as (x' & Hx' & ? & ?).
    split_and!; try done. by exists x'.
  - destruct (IH _ _ _ _ Hin) as (Hc & Hk & Hn & Hx).
    split_and!; try done.
    destruct (instances st !! n) as [x|] eqn:E; [|done].
    destruct (instance_kept st (step a st).1 n x (step_daemon_move a st) E)
      as (x1 & H1 & _). congruence.
Qed.

(** X13. Whatever the schedule, every daemon object the routing thread
    has started was started for a message that its class's [condition]
    accepts, is a new object, and keeps that class and that message as its
    data for the rest of the run. *)
Theorem daemons_start_on_accepted_message (acts : list Action) (d n : nat)
    (item : Item) :
  EvStart d n item ∈ trace acts boot →
  condition (classes d) item = true ∧
  ∃ x, instances (exec acts boot) !! n = Some x ∧
       klass x = d ∧ data x = item.
Proof.
  intros Hin. by destruct (trace_starts acts boot d n item Hin) as (? & _ & _ & ?).
Qed.

End Run.

(** *** A small installation

    One regular plugin that takes data lines, one daemon class that is
    triggered by commands (the scenario of the design document), a daemon
    [exit] that waits for the thread when asked to join. *)

Definition one_plugin (p : nat) : Instantiation :=
  match p with
  | 0 => Built Plugin.data_worker
  | _ => Skipped
  end.

Definition is_command (item : Item) : bool :=
  match item with
  | Command _ => true
  | _ => false
  end.

Definition on_command (d : nat) : DaemonClass :=
  mkDaemonClass is_command (λ _, true).

Definition sink_works (logged : list Item) (item : Item) : bool := false.

Definition sink_fails (logged : list Item) (item : Item) : bool := true.

Definition exit_waits (join : bool) (x : Instance) : bool :=
  negb (join && inst_alive x).

Abbreviation installed := (boot [0] one_plugin).

Definition sighup : Item := Command (Signal SIGHUP).

(** Three messages are routed. *)
Definition three_messages : list Action :=
  [Produce (DataLine "a"); Produce sighup; Produce (DataLine "b");
   Run; Run; Run; Run;  Run; Run; Run; Run;  Run; Run; Run; Run].

(** A command is routed and starts a daemon; then [exit(join=True)] is
    called while the routing thread waits on the queue, and runs to its
    end. *)
Definition shutdown_with_join : list Action :=
  [Produce sighup; Run; Run; Run; Run; Run;
   CallExit true; Exit; Exit; Exit; Exit; Exit;
   Run; Run; Run; Run; Run; Exit].

(** A first message meets a failing sink; then [exit(join=True)] is
    called and runs to its end. *)
Definition sink_failure_then_exit : list Action :=
  [Produce (DataLine "a"); Run; Run;
   CallExit true; Exit; Exit; Exit; Exit; Exit; Exit].

(** The wait on the queue times out. *)
Definition timeout_tick : list Action := [Run; Run; Run; Run].

(** [exit()] is called while the routing thread waits on the queue. *)
Definition sentinel_tick : list Action :=
  [Run; CallExit false; Exit; Exit; Run; Run; Run].

Abbreviation state_after acts :=
  (exec [0] on_command sink_works exit_waits acts installed).

Abbreviation calls_during acts :=
  (trace [0] on_command sink_works exit_waits acts installed).

Abbreviation after_sink_failure :=
  (exec [0] on_command sink_fails exit_waits sink_failure_then_exit installed).

(** Closed facts about the installation are settled by evaluation. *)
Ltac by_evaluation := vm_compute; reflexivity.

Lemma installed_workers : workers installed = [Plugin.data_worker].
Proof. by_evaluation. Qed.

Lemma installed_declared : declared (workers installed).
Proof.
  rewrite installed_workers. intros [|j] w Hw; simplify_eq/=. by eexists.
Qed.

Lemma data_worker_admits : admits_subscribed Plugin.data_worker.
Proof. intros k ->%list_elem_of_singleton. reflexivity. Qed.

Lemma three_messages_daemon :
  instances (state_after three_messages) !! 0 = Some (mkInstance 0 sighup true).
Proof. by_evaluation. Qed.

Lemma shutdown_returned : caller (state_after shutdown_with_join) = ExitReturned true.
Proof. by_evaluation. Qed.

Lemma waiting_with_message :
  pc (state_after [Produce (DataLine "a"); Run]) = Waiting ∧
  main_queue (state_after [Produce (DataLine "a"); Run]) = [DataLine "a"] ∧
  sink_fails (sink (state_after [Produce (DataLine "a"); Run])) (DataLine "a") = true.
Proof. split_and!; by_evaluation. Qed.

Lemma waiting_without_message : main_queue (state_after [Run]) = [].
Proof. by_evaluation. Qed.

Lemma one_live_daemon_per_class_witness :
  instances (state_after three_messages) !! 0 = Some (mkInstance 0 sighup true) ∧
  ∀ j y, instances (state_after three_messages) !! j = Some y →
         klass y = 0 → inst_alive y = true → j = 0.
Proof.
  split; [exact three_messages_daemon|]. intros j y Hy Hk Ha.
  exact (proj1 (one_live_daemon_per_class [0] [0] one_plugin on_command
                  sink_works exit_waits three_messages)
           j 0 y (mkInstance 0 sighup true) Hy three_messages_daemon
           Hk Ha eq_refl).
Defined.



(** C3, as stated, fails: on a timeout the predicate of the registered
    daemon class is evaluated on the null value; and when the sentinel is
    taken from the queue it is, besides, first passed to the record sink. *)
Lemma ticks_reach_sink_and_daemons :
  calls_during timeout_tick = [EvCondition 0 PyNone] ∧
  (iteration [0] on_command sink_works (state_after [Run])).2 = [EvCondition 0 PyNone] ∧
  main_queue (state_after [Run; CallExit false; Exit; Exit]) = [PyNone] ∧
  calls_during sentinel_tick = [EvLog PyNone; EvCondition 0 PyNone] ∧
  sink (state_after sentinel_tick) = [PyNone].
Proof. split_and!; by_evaluation. Qed.

Lemma null_tick_witness :
  main_queue (state_after [Run]) = [] ∧
  sink (iteration [0] on_command sink_works (state_after [Run])).1 = sink (state_after [Run]) ∧
  EvCondition 0 PyNone ∈ (iteration [0] on_command sink_works (state_after [Run])).2.
Proof.
  destruct (proj1 (null_tick [0] on_command sink_works (state_after [Run]))
              waiting_without_message) as (H1 & _ & _ & H4).
  split; [exact waiting_without_message|]. split; [exact H1|].
  apply (H4 0); [apply list_elem_of_singleton; reflexivity|by_evaluation].
Defined.

Lemma log_before_fan_out_witness :
  pc (state_after [Produce (DataLine "a"); Run]) = Waiting ∧
  ∃ st', run_step [0] on_command sink_fails (state_after [Produce (DataLine "a"); Run])
           = Some (st', [EvLog (DataLine "a")]) ∧
         pc st' = Crashed SinkError ∧
         workers st' = workers (state_after [Produce (DataLine "a"); Run]).
Proof.
  destruct waiting_with_message as (Hpc & Hq & Hlog).
  split; [exact Hpc|].
  destruct (log_before_fan_out [0] on_command sink_fails exit_waits
              (state_after [Produce (DataLine "a"); Run]) (DataLine "a") []
              Hpc Hq) as (st' & puts & Hstep & _ & Hfail).
  destruct (Hfail Hlog) as (Hputs & Hpc' & Hw & _).
  exists st'. rewrite Hputs in Hstep. split; [exact Hstep|].
  split; [exact Hpc'|exact Hw].
Defined.

Lemma three_messages_sink :
  sink (state_after three_messages) = [DataLine "a"; sighup; DataLine "b"].
Proof. by_evaluation. Qed.

Lemma fifo_per_worker_witness :
  sink (state_after three_messages) = [DataLine "a"; sighup; DataLine "b"] ∧
  ∃ w, workers (state_after three_messages) !! 0 = Some w ∧
       Plugin.queue w = [DataLine "a"; DataLine "b"].
Proof.
  split; [exact three_messages_sink|].
  assert (workers installed !! 0 = Some Plugin.data_worker) as H0
    by (rewrite installed_workers; reflexivity).
  destruct (fifo_per_worker [0] [0] one_plugin on_command sink_works
              exit_waits three_messages 0 Plugin.data_worker
              installed_declared H0)
    as (w & Hw & _ & Hq).
  exists w. split; [exact Hw|].
  rewrite (Hq data_worker_admits), three_messages_sink. by_evaluation.
Defined.

(** Three other installations: the one plugin subscribes to data lines
    and leaves [consumerType] unset; the one plugin subscribes to data
    lines while its [put] also takes commands; the plugin of the first
    installation runs beside the data worker. *)
Definition unset_plugin (p : nat) : Instantiation :=
  match p with
  | 0 => Built Plugin.unset_worker
  | _ => Skipped
  end.

Definition wide_plugin (p : nat) : Instantiation :=
  match p with
  | 0 => Built Plugin.wide_worker
  | _ => Skipped
  end.

Definition unset_beside_data (p : nat) : Instantiation :=
  match p with
  | 0 => Built Plugin.data_worker
  | 1 => Built Plugin.unset_worker
  | _ => Skipped
  end.

Definition one_line : list Action := [Produce (DataLine "a"); Run; Run].

Definition one_command : list Action := [Produce sighup; Run; Run; Run; Run].

Abbreviation unset_after acts :=
  (exec [0] on_command sink_works exit_waits acts (boot [0] unset_plugin)).

Abbreviation wide_after acts :=
  (exec [0] on_command sink_works exit_waits acts (boot [0] wide_plugin)).

Abbreviation beside_after acts :=
  (exec [0] on_command sink_works exit_waits acts
     (boot [0; 1] unset_beside_data)).

(** C6, as stated, fails. A data line is processed and the worker that
    subscribed to data lines never has it in its queue, because its [put]
    raised and ended the run; a command is processed and the worker whose
    [put] takes commands never has it in its queue, because the routing
    table has the worker under data lines only; and the data worker, which
    is in order, misses a processed data line because the [put] of the
    worker visited before it raised. *)
Lemma processed_not_enqueued :
  sink (unset_after one_line) = [DataLine "a"] ∧
  KDataLine ∈ Plugin.consumer_type Plugin.unset_worker ∧
  Plugin.queue <$> workers (unset_after one_line) !! 0 = Some [] ∧
  pc (unset_after one_line) = Crashed TypeError ∧
  sink (wide_after one_command) = [sighup] ∧
  Plugin.accepts Plugin.wide_worker KCommand = true ∧
  Plugin.queue <$> workers (wide_after one_command) !! 0 = Some [] ∧
  pc (wide_after one_command) = LoopHead ∧
  sink (beside_after one_line) = [DataLine "a"] ∧
  workers (boot [0; 1] unset_beside_data) !! 0 = Some Plugin.data_worker ∧
  Plugin.accepts Plugin.data_worker KDataLine = true ∧
  KDataLine ∈ Plugin.consumer_type Plugin.data_worker ∧
  Plugin.queue <$> workers (beside_after one_line) !! 0 = Some [].
Proof.
  split_and!; try by_evaluation; vm_compute; constructor.
Qed.

Lemma sink_failure_outcome :
  caller after_sink_failure = ExitReturned true ∧
  pc after_sink_failure = Crashed SinkError ∧
  runlock after_sink_failure = true.
Proof. split_and!; by_evaluation. Qed.

(** C7, at the failing input. The first message meets a failing record
    sink, so [run] is left by the exception; [exit(join=True)] then does
    all it has to do and returns. The run lock is still held, and nothing
    that can happen afterwards releases it. *)
Theorem run_lock_leaked_after_sink_failure :
  caller after_sink_failure = ExitReturned true ∧
  pc after_sink_failure = Crashed SinkError ∧
  runlock after_sink_failure = true ∧
  ∀ later,
    runlock (exec [0] on_command sink_fails exit_waits later after_sink_failure)
      = true.
Proof.
  destruct sink_failure_outcome as (Hc & Hp & Hl).
  split_and!; try done. intros later.
  destruct (crashed_forever [0] on_command sink_fails exit_waits later
              after_sink_failure SinkError Hp) as (_ & Hr & _).
  by rewrite Hr.
Qed.

(** *** The further properties on the small installation *)

Lemma three_messages_calls :
  calls_during three_messages =
    [EvLog (DataLine "a"); EvPut 0 (DataLine "a");
     EvCondition 0 (DataLine "a"); EvLog sighup; EvCondition 0 sighup;
     EvStart 0 0 sighup; EvLog (DataLine "b"); EvPut 0 (DataLine "b")].
Proof. by_evaluation. Qed.

Lemma signalled_while_waiting :
  sig_exit (state_after [Run; CallExit false; Exit]) = true ∧
  steps_left [0] (state_after [Run; CallExit false; Exit]) = 5 ∧
  logs_left (state_after [Run; CallExit false; Exit]) = 1 ∧
  sink (state_after [Run; CallExit false; Exit]) = [].
Proof. split_and!; by_evaluation. Qed.

Lemma run_ends_after_exit_signal_witness :
  sig_exit (state_after [Run; CallExit false; Exit]) = true ∧
  thread_alive
    (pc (exec [0] on_command sink_works exit_waits
           [Run; Produce sighup; Run; Run; Run; Run]
           (state_after [Run; CallExit false; Exit]))) = false.
Proof.
  destruct signalled_while_waiting as (Hs & Hl & _).
  split; [exact Hs|].
  apply (run_ends_after_exit_signal [0] on_command sink_works exit_waits
           [Run; Produce sighup; Run; Run; Run; Run]
           (state_after [Run; CallExit false; Exit]) Hs).
  rewrite Hl. by_evaluation.
Defined.

Lemma one_more_log_after_exit_signal_witness :
  sig_exit (state_after [Run; CallExit false; Exit]) = true ∧
  length
    (sink (exec [0] on_command sink_works exit_waits
             [Produce sighup; Produce (DataLine "a"); Run; Run; Run; Run; Run]
             (state_after [Run; CallExit false; Exit]))) ≤ 1.
Proof.
  destruct signalled_while_waiting as (Hs & _ & Hl & Hk).
  split; [exact Hs|].
  pose proof (one_more_log_after_exit_signal [0] on_command sink_works
                exit_waits
                [Produce sighup; Produce (DataLine "a"); Run; Run; Run; Run; Run]
                (state_after [Run; CallExit false; Exit]) Hs) as H.
  rewrite Hl, Hk in H. exact H.
Defined.

Lemma puts_are_subscribed_and_logged_witness :
  EvPut 0 (DataLine "b") ∈ calls_during three_messages ∧
  DataLine "b" ∈ sink (state_after three_messages).
Proof.
  assert (EvPut 0 (DataLine "b") ∈ calls_during three_messages) as Hin.
  { rewrite three_messages_calls. apply list_elem_of_In. simpl. tauto. }
  split; [exact Hin|].
  exact (proj2 (puts_are_subscribed_and_logged [0] [0] one_plugin on_command
                  sink_works exit_waits three_messages 0 (DataLine "b") Hin)).
Defined.

Lemma daemons_start_on_accepted_message_witness :
  EvStart 0 0 sighup ∈ calls_during three_messages ∧
  condition (on_command 0) sighup = true.
Proof.
  assert (EvStart 0 0 sighup ∈ calls_during three_messages) as Hin.
  { rewrite three_messages_calls. apply list_elem_of_In. simpl. tauto. }
  split; [exact Hin|].
  exact (proj1 (daemons_start_on_accepted_message [0] [0] one_plugin
                  on_command sink_works exit_waits three_messages 0 0 sighup
                  Hin)).
Defined.

End Dispatcher.
